(** * promptpig: extraction, tolerant parsing, validation and streaming

    A shallow embedding of [src/index.ts]: the fenced-block extractor
    [extractCode], the tolerant parser [parseAny], the client's
    [PromptPig.prompt], and the two pipelines [Prompt.run] and
    [Prompt.stream], followed by the properties established about them. *)

From Equations Require Import Equations.
From Stdlib Require Import Ascii String.
From Stdlib Require Import List Arith ZArith Lia Bool Sorted.
Import ListNotations.

Set Implicit Arguments.
Set Warnings "-register-all,-notation-for-abbreviation".

(** ** Texts

    A JavaScript string is a sequence of code units.  The extractor's
    pattern only tells apart the newline, the space, the backtick and the
    word characters, all of them ASCII, so a text is modelled as a list of
    [ascii] characters; positions and lengths are natural numbers. *)

Definition text := list ascii.

Definition txt (s : string) : text := list_ascii_of_string s.

Module JsString.

(** [s.slice(start)] for a non-negative [start]. *)
Definition slice_from (s : text) (start : nat) : text :=
  skipn (Nat.min start (length s)) s.

(** [s.slice(start, end)] for non-negative bounds: both are clamped to
    the length, and an empty text results when [end <= start]. *)
Definition slice (s : text) (start end_ : nat) : text :=
  let from := Nat.min start (length s) in
  let to := Nat.min end_ (length s) in
  firstn (Nat.max (to - from) 0) (skipn from s).

End JsString.

(** ** Regular expressions

    The fragment of JavaScript regular expressions that [codeBlockExp]
    uses: a sequence of atoms, each a character class taken once, taken
    optionally ([?]) or repeated greedily ([*]).  [exec] is the
    backtracking matcher: a greedy quantifier first takes as much as it
    can and gives characters back only when the rest of the pattern
    fails.  It answers the length of the match that starts at the head
    of the text. *)

Module RegExp.

Inductive atom : Type :=
| One (cls : ascii -> bool)
| Opt (cls : ascii -> bool)
| Star (cls : ascii -> bool).

Definition regexp := list atom.

Fixpoint star (cls : ascii -> bool) (k : text -> option nat) (s : text)
  : option nat :=
  match s with
  | c :: s' =>
      if cls c then
        match star cls k s' with
        | Some n => Some (S n)
        | None => k s
        end
      else k s
  | [] => k []
  end.

Fixpoint exec (r : regexp) : text -> option nat :=
  match r with
  | [] => fun _ => Some 0
  | One cls :: r' => fun s =>
      match s with
      | c :: s' => if cls c then option_map S (exec r' s') else None
      | [] => None
      end
  | Opt cls :: r' => fun s =>
      match s with
      | c :: s' =>
          if cls c then
            match exec r' s' with
            | Some n => Some (S n)
            | None => exec r' s
            end
          else exec r' s
      | [] => exec r' []
      end
  | Star cls :: r' => star cls (exec r')
  end.

(** One entry of [matchAll]: where the match starts and what it
    covers ([m.index] and [m[0]]). *)
Record RegExpMatch : Type := mkMatch { index : nat; matched : text }.

(** [[...text.matchAll(r)]] for a global [r], on the text that remains
    from [lastIndex] on: the leftmost position where [r] matches gives
    the next entry, and the search resumes where that match ended (one
    position further when the match was empty). *)
Equations? matchAll_from (r : regexp) (lastIndex : nat) (s : text)
  : list RegExpMatch by wf (length s) lt :=
  matchAll_from r lastIndex [] with exec r [] := {
    | Some _ => [mkMatch lastIndex []]
    | None => [] };
  matchAll_from r lastIndex (c :: s') with exec r (c :: s') := {
    | Some 0 => mkMatch lastIndex [] :: matchAll_from r (S lastIndex) s'
    | Some (S n) =>
        mkMatch lastIndex (firstn (S n) (c :: s'))
          :: matchAll_from r (lastIndex + S n) (skipn n s')
    | None => matchAll_from r (S lastIndex) s' }.
Proof.
  all: simpl; try lia.
  pose proof (length_skipn n s'). lia.
Qed.

Definition matchAll (r : regexp) (s : text) : list RegExpMatch :=
  matchAll_from r 0 s.

End RegExp.

Import RegExp.

(** ** The block extractor *)

Definition is_char (c : ascii) : ascii -> bool := Ascii.eqb c.

Definition newline : ascii := "010"%char.
Definition space : ascii := " "%char.
Definition backtick : ascii := "`"%char.

(** [\w] without the unicode flag: [[A-Za-z0-9_]]. *)
Definition is_word (c : ascii) : bool :=
  let n := nat_of_ascii c in
  ((65 <=? n) && (n <=? 90)) || ((97 <=? n) && (n <=? 122))
  || ((48 <=? n) && (n <=? 57)) || (n =? 95).

(** [/\n? *```\w* *\n?/g] *)
Definition codeBlockExp : regexp :=
  [ Opt (is_char newline); Star (is_char space);
    One (is_char backtick); One (is_char backtick); One (is_char backtick);
    Star is_word; Star (is_char space); Opt (is_char newline) ].

Definition extractCode (t : text) : text :=
  let matches := matchAll codeBlockExp t in
  match matches with
  | [] => t
  | [m0] => JsString.slice_from t (index m0 + length (matched m0))
  | m0 :: m1 :: _ =>
      let start := index m0 + length (matched m0) in
      let end_ := index m1 in
      JsString.slice t start end_
  end.

(** ** Candidate values

    What the two decoders hand back: the values of JSON, with
    [JUndefined] for what reading past the end of an array gives.  The
    representation of numbers plays no part and is left open. *)

Inductive JsValue (Num : Type) : Type :=
| JUndefined
| JNull
| JBool (b : bool)
| JNum (n : Num)
| JStr (s : text)
| JArr (items : list (JsValue Num))
| JObj (fields : list (text * JsValue Num)).

Arguments JUndefined {Num}.
Arguments JNull {Num}.
Arguments JBool {Num} b.
Arguments JStr {Num} s.

(** The two external decoders.  Each either returns a value or throws,
    which is [None] here. *)
Class Decoders (Num : Type) : Type := {
  PartialJSON_parse : text -> option (JsValue Num);
  YAML_parse : text -> option (JsValue Num)
}.

(** ** Schemas

    A zod schema is used through [instanceof] tests against three of its
    classes, through [safeParse] and, for an array schema, through
    [element].  A successful [safeParse] carries the typed value, itself
    a JavaScript value. *)

Inductive ZodType (Num : Type) : Type :=
| ZodString (parse : JsValue Num -> option (JsValue Num))
| ZodArray (parse : JsValue Num -> option (JsValue Num))
           (element : ZodType Num)
| ZodObject (parse : JsValue Num -> option (JsValue Num))
| ZodOther (parse : JsValue Num -> option (JsValue Num)).

(** What [stream] yields: a raw fragment, or the typed value of an array
    element.  [Element] also records the index [i] of the element it
    came from, which the consumer does not see. *)
Inductive Yield (Num : Type) : Type :=
| Chunk (m : text)
| Element (i : nat) (data : JsValue Num).

Arguments Chunk {Num} m.

(** One choice of a completion or of a stream event, reduced to the
    field the pipelines read: [message.content], respectively
    [delta.content], present only when it is a string. *)
Record Choice : Type := { content : option text }.

(** [choices[0]?.message.content] and [choices[0]?.delta.content]. *)
Definition first_content (choices : list Choice) : option text :=
  match choices with
  | [] => None
  | c :: _ => content c
  end.

(** JavaScript truthiness of an optional string. *)
Definition truthy (s : option text) : bool :=
  match s with
  | Some (_ :: _) => true
  | _ => false
  end.

Inductive Error : Type := MkError (message : string).

(** The OpenAI client, as far as the constructor is concerned. *)
Record OpenAI : Type := NewOpenAI {
  client_baseURL : option text;
  client_apiKey : option text
}.

Record PromptPigOptions : Type := {
  opt_openai : option OpenAI;
  opt_baseURL : option text;
  opt_apiKey : option text;
  opt_model : option text
}.

Record PromptPig : Type := {
  pp_openai : OpenAI;
  pp_model : option text
}.

Definition new_PromptPig (o : PromptPigOptions) : Error + PromptPig :=
  if negb (match opt_openai o with Some _ => true | None => false end)
     && negb (truthy (opt_baseURL o) && truthy (opt_apiKey o))
  then inl (MkError "Either an openai object or a baseURL and apiKey need to be provided in the PromptPig options.")
  else inr {| pp_openai := match opt_openai o with
                           | Some c => c
                           | None => NewOpenAI (opt_baseURL o) (opt_apiKey o)
                           end;
              pp_model := opt_model o |}.

Section Model.

Variable Num : Type.
Variable Tmpl : Type.
Context {decoders : Decoders Num}.

Notation Value := (JsValue Num).
Notation Schema := (ZodType Num).

Definition parseAny (t : text) : Value :=
  match PartialJSON_parse t with
  | Some v => v
  | None =>
      match YAML_parse t with
      | Some v => v
      | None => JStr t
      end
  end.

Definition safeParse (schema : Schema) : Value -> option Value :=
  match schema with
  | ZodString parse => parse
  | ZodArray parse _ => parse
  | ZodObject parse => parse
  | ZodOther parse => parse
  end.

Definition instanceof_ZodArray (schema : Schema) : bool :=
  match schema with ZodArray _ _ => true | _ => false end.

Definition instanceof_ZodObject (schema : Schema) : bool :=
  match schema with ZodObject _ => true | _ => false end.

Definition instanceof_ZodString (schema : Schema) : bool :=
  match schema with ZodString _ => true | _ => false end.

(** [z.string()]: accepts exactly the strings, unchanged. *)
Definition z_string : Schema :=
  ZodString (fun v => match v with JStr s => Some (JStr s) | _ => None end).

Record PromptOptions : Type := {
  po_model : option text;
  po_schema : option Schema
}.

Record Prompt : Type := {
  template : Tmpl;
  openai : OpenAI;
  model : text;
  schema : Schema
}.

Definition new_Prompt (tmpl : Tmpl) (client : OpenAI) (m : text)
    (s : option Schema) : Prompt :=
  {| template := tmpl;
     openai := client;
     model := m;
     schema := match s with Some s => s | None => z_string end |}.

(** [PromptPig.prompt]: [this.model ?? options?.model], refused when
    the outcome is falsy. *)
Definition prompt (pp : PromptPig) (tmpl : Tmpl)
    (options : option PromptOptions) : Error + Prompt :=
  let model :=
    match pp_model pp with
    | Some m => Some m
    | None => match options with Some o => po_model o | None => None end
    end in
  match model with
  | Some (c :: m) =>
      inr (new_Prompt tmpl (pp_openai pp) (c :: m)
             (match options with Some o => po_schema o | None => None end))
  | _ => inl (MkError "A model needs to be provided in the PromptPig options or in the .prompt() options.")
  end.

(** *** The batch pipeline

    [run] from the point where the awaited completion has arrived.
    Next to its result it lists the stages it went through, in order. *)

Inductive Stage : Type :=
| Extracted (input : text)
| Parsed (input : text)
| Validated (candidate : Value).

Definition run (p : Prompt) (choices : list Choice)
  : list Stage * option Value :=
  match first_content choices with
  | None => ([], None)
  | Some msg =>
      let schemaArray := instanceof_ZodArray (schema p) in
      let schemaObj := instanceof_ZodObject (schema p) in
      let isCode := schemaArray || schemaObj in
      let extract := if isCode then extractCode msg else msg in
      let schemaStr := instanceof_ZodString (schema p) in
      let data := if schemaStr then JStr extract else parseAny extract in
      let result := safeParse (schema p) data in
      ((if isCode then [Extracted msg] else [])
         ++ (if schemaStr then [] else [Parsed extract])
         ++ [Validated data],
       result)
  end.

(** *** The streaming pipeline *)

(** [data[i]] *)
Definition at_index (data : list Value) (i : nat) : Value :=
  nth i data JUndefined.

(** [if (parse.success) yield parse.data] *)
Definition yield_if_success (i : nat) (parse : option Value)
  : list (Yield Num) :=
  match parse with
  | Some d => [Element i d]
  | None => []
  end.

(** The loop run on every fragment:
    [for (let i = itemsDone; i < data.length - 1; i++) { ...; itemsDone++ }].
    It answers what was yielded and the final [itemsDone]. *)
Equations? accumulate (element : Schema) (data : list Value)
    (i itemsDone : nat) : list (Yield Num) * nat
    by wf (length data - i) lt :=
  accumulate element data i itemsDone
    with Z_lt_dec (Z.of_nat i) (Z.of_nat (length data) - 1) := {
    | left _ =>
        let parse := safeParse element (at_index data i) in
        let rest := accumulate element data (S i) (S itemsDone) in
        (yield_if_success i parse ++ fst rest, snd rest)
    | right _ => ([], itemsDone) }.
Proof. lia. Qed.

(** The loop run at the end of the stream:
    [for (let i = itemsDone; i < data.length; i++) { ... }]. *)
Equations? drain_from (element : Schema) (data : list Value) (i : nat)
  : list (Yield Num) by wf (length data - i) lt :=
  drain_from element data i with lt_dec i (length data) := {
    | left _ =>
        yield_if_success i (safeParse element (at_index data i))
          ++ drain_from element data (S i)
    | right _ => [] }.
Proof. lia. Qed.

Record StreamState : Type := {
  buffer : text;
  itemsDone : nat
}.

Definition initial : StreamState := {| buffer := []; itemsDone := 0 |}.

(** One turn of [for await (const event of stream)]. *)
Definition on_event (s : Schema) (st : StreamState) (event : list Choice)
  : list (Yield Num) * StreamState :=
  match first_content event with
  | None => ([], st)
  | Some m =>
      if length m =? 0 then ([], st)
      else
        match s with
        | ZodArray _ element =>
            let buffer' := buffer st ++ m in
            let extract := extractCode buffer' in
            let data := parseAny extract in
            match data with
            | JArr items =>
                let r := accumulate element items (itemsDone st) (itemsDone st) in
                (fst r, {| buffer := buffer'; itemsDone := snd r |})
            | _ => ([], {| buffer := buffer'; itemsDone := itemsDone st |})
            end
        | _ => ([Chunk m], st)
        end
  end.

Fixpoint on_events (s : Schema) (st : StreamState)
    (events : list (list Choice)) : list (Yield Num) * StreamState :=
  match events with
  | [] => ([], st)
  | event :: events' =>
      let r := on_event s st event in
      let r' := on_events s (snd r) events' in
      (fst r ++ fst r', snd r')
  end.

(** What follows the loop over the events. *)
Definition on_end (s : Schema) (st : StreamState) : list (Yield Num) :=
  match s with
  | ZodArray _ element =>
      let extract := extractCode (buffer st) in
      let data := parseAny extract in
      match data with
      | JArr items => drain_from element items (itemsDone st)
      | _ => []
      end
  | _ => []
  end.

(** [stream] from the point where the upstream events are available:
    everything it yields, in order. *)
Definition stream (p : Prompt) (events : list (list Choice))
  : list (Yield Num) :=
  let r := on_events (schema p) initial events in
  fst r ++ on_end (schema p) (snd r).

(** The values the consumer of [stream] receives. *)
Definition yielded_value (y : Yield Num) : Value :=
  match y with
  | Chunk m => JStr m
  | Element _ d => d
  end.

End Model.

Arguments Extracted {Num} input.
Arguments Parsed {Num} input.

(** ** Vocabulary of the statements *)

(** The fence delimiters of a text: what [extractCode] takes them to be. *)
Definition delimiters (t : text) : list RegExpMatch :=
  matchAll codeBlockExp t.

Definition ticks (n : nat) : text := repeat backtick n.
Definition spaces (n : nat) : text := repeat space n.
Definition opt_newline (b : bool) : text := if b then [newline] else [].

(** An opening fence line: optional line break and indentation, three
    backticks, a language tag, optional spaces, and the line end. *)
Definition opening_fence (nl : bool) (indent : nat) (tag : text)
    (trail : nat) : text :=
  opt_newline nl ++ spaces indent ++ ticks 3 ++ tag ++ spaces trail
    ++ [newline].

(** The start of a closing fence line. *)
Definition closing_fence (nl : bool) (indent : nat) : text :=
  opt_newline nl ++ spaces indent ++ ticks 3.

Definition no_backtick (t : text) : Prop := Forall (fun c => c <> backtick) t.

(** The text does not end in a space or a line break. *)
Definition ends_clean (t : text) : Prop :=
  forall t' c, t = t' ++ [c] -> c <> space /\ c <> newline.

(** A block fenced by lines of [k] backticks. *)
Definition fenced (k : nat) (tag body : text) : text :=
  ticks k ++ tag ++ [newline] ++ body ++ [newline] ++ ticks k.

(** Every entry of [matchAll] is where it says it is, and the entries
    follow one another without overlap. *)
Fixpoint located (t : text) (from : nat) (ms : list RegExpMatch) : Prop :=
  match ms with
  | [] => True
  | m :: ms' =>
      from <= index m
      /\ index m + length (matched m) <= length t
      /\ firstn (length (matched m)) (skipn (index m) t) = matched m
      /\ located t (index m + length (matched m)) ms'
  end.

(** What follows the three backticks of [codeBlockExp]. *)
Definition fence_tail : regexp :=
  [Star is_word; Star (is_char space); Opt (is_char newline)].

(** The non-empty text fragments of a stream, in arrival order. *)
Definition fragments (events : list (list Choice)) : list text :=
  flat_map (fun event =>
              match first_content event with
              | Some m => if length m =? 0 then [] else [m]
              | None => []
              end) events.

(** The source indices of the elements among what was yielded. *)
Definition indices (Num : Type) (ys : list (Yield Num)) : list nat :=
  flat_map (fun y => match y with Element i _ => [i] | Chunk _ => [] end) ys.

Section Vocabulary.

Variable Num : Type.
Context {decoders : Decoders Num}.

(** The elements of [data] at the indices from [lo] up to, but not
    including, [hi], each validated against [element] and kept when
    valid. *)
Definition valid_elements (element : ZodType Num) (data : list (JsValue Num))
    (lo hi : nat) : list (Yield Num) :=
  flat_map (fun i => yield_if_success i (safeParse element (at_index data i)))
           (seq lo (hi - lo)).

(** The candidate value of the buffer after the first [k] events. *)
Definition candidate_after (events : list (list Choice)) (k : nat)
  : JsValue Num :=
  parseAny (extractCode (concat (fragments (firstn k events)))).

(** Every array seen while the stream grows agrees, on all its elements
    but the last, with the array [final] seen at the end. *)
Definition settled (events : list (list Choice)) (final : list (JsValue Num))
  : Prop :=
  forall k items, candidate_after events k = JArr items ->
    length items - 1 <= length final
    /\ firstn (length items - 1) items = firstn (length items - 1) final.

(** What is yielded is the validated form of an element of the array
    that the buffer held after some number of events. *)
Definition from_candidate (element : ZodType Num)
    (events : list (list Choice)) (y : Yield Num) : Prop :=
  exists k items i d,
    y = Element i d
    /\ candidate_after events k = JArr items
    /\ i < length items
    /\ safeParse element (at_index items i) = Some d.

(** The emission of a stream under an array schema, fragment by
    fragment, read off the candidate values of the accumulated buffer
    alone.  [k] events have been received and the cursor is at [cursor].
    A non-empty fragment after which the buffer parses to an array
    yields the valid elements from the cursor up to, not including, the
    last, and moves the cursor past every index visited; any other event
    yields nothing and leaves the cursor.  When the events are exhausted
    the valid elements from the cursor through the last are yielded. *)
Fixpoint emission_from (element : ZodType Num) (all : list (list Choice))
    (k cursor : nat) (todo : list (list Choice)) : list (Yield Num) :=
  match todo with
  | [] =>
      match candidate_after all k with
      | JArr items => valid_elements element items cursor (length items)
      | _ => []
      end
  | event :: todo' =>
      match first_content event with
      | Some (_ :: _) =>
          match candidate_after all (S k) with
          | JArr items =>
              valid_elements element items cursor (length items - 1)
                ++ emission_from element all (S k)
                     (cursor + (length items - 1 - cursor)) todo'
          | _ => emission_from element all (S k) cursor todo'
          end
      | _ => emission_from element all (S k) cursor todo'
      end
  end.

Definition emission (element : ZodType Num) (events : list (list Choice))
  : list (Yield Num) :=
  emission_from element events 0 0 events.

End Vocabulary.

(** ** Sample collaborators

    Concrete decoders, schemas and prompts on which the pipelines can be
    evaluated. *)

Definition text_eqb (a b : text) : bool :=
  if list_eq_dec ascii_dec a b then true else false.

Fixpoint lookup (table : list (text * JsValue Z)) (t : text)
  : option (JsValue Z) :=
  match table with
  | [] => None
  | (key, v) :: table' => if text_eqb key t then Some v else lookup table' t
  end.

(** Decoders that know the texts listed and throw on every other one:
    [PartialJSON.parse] closes the unfinished array of ["[1,"], and
    [YAML.parse] reads a bare word as a string. *)
#[export] Instance sample_decoders : Decoders Z := {|
  PartialJSON_parse :=
    lookup [ (txt "[1,2,3]", JArr [JNum 1%Z; JNum 2%Z; JNum 3%Z]);
             (txt "[4]", JArr [JNum 4%Z]);
             (txt "[1,", JArr [JNum 1%Z]);
             (txt "[null,2,3]", JArr [JNull; JNum 2%Z; JNum 3%Z]);
             (txt "42", JNum 42%Z) ];
  YAML_parse :=
    lookup [ (txt "Here", JStr (txt "Here")) ]
|}.

Fixpoint all_some (A : Type) (l : list (option A)) : option (list A) :=
  match l with
  | [] => Some []
  | Some x :: l' => option_map (cons x) (all_some l')
  | None :: _ => None
  end.

(** [z.number()] *)
Definition z_number : ZodType Z :=
  ZodOther (fun v => match v with JNum _ => Some v | _ => None end).

(** [z.array(element)]: an array all of whose elements are valid. *)
Definition z_array (element : ZodType Z) : ZodType Z :=
  ZodArray (fun v => match v with
                     | JArr items =>
                         option_map (@JArr Z)
                           (all_some (map (safeParse element) items))
                     | _ => None
                     end)
           element.

(** [z.object({})]: any object. *)
Definition z_object : ZodType Z :=
  ZodObject (fun v => match v with JObj _ => Some v | _ => None end).

(** An event, or a completion, whose first choice carries the text. *)
Definition delta (m : string) : list Choice := [{| content := Some (txt m) |}].

Definition sample_options : PromptPigOptions :=
  {| opt_openai := None;
     opt_baseURL := Some (txt "https://openrouter.ai/api/v1");
     opt_apiKey := Some (txt "your-api-key");
     opt_model := Some (txt "deepseek/deepseek-r1") |}.

Definition sample_client : PromptPig :=
  {| pp_openai := NewOpenAI (Some (txt "https://openrouter.ai/api/v1"))
                            (Some (txt "your-api-key"));
     pp_model := Some (txt "deepseek/deepseek-r1") |}.

Definition prompt_of (s : ZodType Z) : Prompt Z unit :=
  new_Prompt tt (pp_openai sample_client) (txt "deepseek/deepseek-r1") (Some s).

Definition numbers_prompt : Prompt Z unit := prompt_of (z_array z_number).
Definition object_prompt : Prompt Z unit := prompt_of z_object.
Definition number_prompt : Prompt Z unit := prompt_of z_number.

(** The second end-to-end example: a fenced array in three fragments. *)
Definition fenced_in_three : list (list Choice) :=
  [ delta "Here";
    delta " you go:
```json
[1,";
    delta "2,3]
```" ].

(** An array, then a fence that opens on another array. *)
Definition array_then_fence : list (list Choice) :=
  [ delta "[1,2,3]"; delta "```[4]" ].

(** * Properties *)

(** ** The matcher stays inside the text *)

Lemma star_le (cls : ascii -> bool) (k : text -> option nat) :
  (forall s n, k s = Some n -> n <= length s) ->
  forall s n, star cls k s = Some n -> n <= length s.
Proof.
  intros Hk s; induction s as [|c s IH]; intros n H; simpl in H.
  - apply Hk in H. exact H.
  - destruct (cls c).
    + destruct (star cls k s) as [m|] eqn:E.
      * injection H as <-. specialize (IH m eq_refl). simpl. lia.
      * apply Hk in H. exact H.
    + apply Hk in H. exact H.
Qed.

Lemma exec_le (r : regexp) :
  forall s n, exec r s = Some n -> n <= length s.
Proof.
  induction r as [|a r IH]; intros s n H.
  - simpl in H. injection H as <-. lia.
  - destruct a as [cls|cls|cls]; simpl in H.
    + destruct s as [|c s]; [discriminate|].
      destruct (cls c); [|discriminate].
      destruct (exec r s) as [m|] eqn:E; [|discriminate].
      injection H as <-. apply IH in E. simpl. lia.
    + destruct s as [|c s].
      * apply IH in H. exact H.
      * destruct (cls c).
        -- destruct (exec r s) as [m|] eqn:E.
           ++ injection H as <-. apply IH in E. simpl. lia.
           ++ apply IH in H. exact H.
        -- apply IH in H. exact H.
    + eapply star_le; eauto.
Qed.

Lemma located_weaken (t : text) (ms : list RegExpMatch) :
  forall from from', from' <= from -> located t from ms -> located t from' ms.
Proof.
  destruct ms as [|m ms]; simpl; [trivial|].
  intros from from' Hle (H1 & H2 & H3 & H4). repeat split; try assumption; lia.
Qed.

Lemma skipn_cons_inv (A : Type) (t : list A) :
  forall pos c s, skipn pos t = c :: s ->
  pos < length t /\ skipn (S pos) t = s.
Proof.
  induction t as [|x t IH]; intros pos c s H.
  - rewrite skipn_nil in H. discriminate.
  - destruct pos as [|pos]; simpl in *.
    + injection H as _ <-. split; [lia|reflexivity].
    + apply IH in H. destruct H as [H1 H2]. split; [lia|exact H2].
Qed.

Lemma matchAll_from_located (r : regexp) (lastIndex : nat) (s : text) :
  forall t, s = skipn lastIndex t -> lastIndex <= length t ->
  located t lastIndex (matchAll_from r lastIndex s).
Proof.
  funelim (matchAll_from r lastIndex s); intros t Hs Hle;
    cbn [located index matched].
  - repeat split; simpl; lia.
  - exact I.
  - symmetry in Hs. apply skipn_cons_inv in Hs. destruct Hs as [Hlt Hs].
    repeat split; try (simpl; lia).
    eapply located_weaken; [|apply H; [symmetry; exact Hs | lia]].
    simpl. lia.
  - symmetry in Hs. pose proof Hs as Hs0.
    apply skipn_cons_inv in Hs. destruct Hs as [Hlt Hs].
    pose proof (exec_le r (c :: s')) as Hb. specialize (Hb _ Heq).
    assert (Hlen : length (c :: s') = length t - lastIndex)
      by (rewrite <- Hs0; apply length_skipn).
    assert (Hm : length (firstn (S n) (c :: s')) = S n)
      by (rewrite length_firstn; lia).
    rewrite Hm. cbn [length] in Hlen, Hb.
    repeat split; try lia.
    + rewrite Hs0. reflexivity.
    + apply H; [|lia].
      rewrite <- Hs. rewrite skipn_skipn. f_equal. lia.
  - symmetry in Hs. apply skipn_cons_inv in Hs. destruct Hs as [Hlt Hs].
    eapply located_weaken; [|apply H; [symmetry; exact Hs | lia]].
    lia.
Qed.

Lemma delimiters_located (t : text) : located t 0 (delimiters t).
Proof.
  unfold delimiters, matchAll.
  apply matchAll_from_located; [reflexivity | lia].
Qed.

(** ** The block extractor, by number of delimiters *)

Lemma split_at_match (t : text) (i : nat) (w : text) :
  i + length w <= length t ->
  firstn (length w) (skipn i t) = w ->
  t = firstn i t ++ w ++ skipn (i + length w) t.
Proof.
  intros Hle Hw.
  rewrite <- (firstn_skipn i t) at 1. f_equal.
  rewrite <- (firstn_skipn (length w) (skipn i t)) at 1.
  rewrite Hw, skipn_skipn. do 2 f_equal. lia.
Qed.

Lemma slice_from_inside (t : text) (n : nat) :
  n <= length t -> JsString.slice_from t n = skipn n t.
Proof.
  intros H. unfold JsString.slice_from. rewrite Nat.min_l by exact H.
  reflexivity.
Qed.

Lemma slice_inside (t : text) (a b : nat) :
  a <= b -> b <= length t ->
  JsString.slice t a b = firstn (b - a) (skipn a t).
Proof.
  intros Hab Hb. unfold JsString.slice.
  rewrite !Nat.min_l by lia. rewrite Nat.max_l by lia. reflexivity.
Qed.

(** C5. With no delimiter the extractor returns its input; with exactly
    one it returns what follows the delimiter up to the end of the text;
    with two or more it returns what lies between the first and the
    second, whatever comes later. *)
Theorem extractCode_by_delimiter_count (t : text) :
  (delimiters t = [] -> extractCode t = t)
  /\ (forall m, delimiters t = [m] ->
        exists before,
          length before = index m
          /\ t = before ++ matched m ++ extractCode t)
  /\ (forall m0 m1 later, delimiters t = m0 :: m1 :: later ->
        exists before after,
          length before = index m0
          /\ index m1 = length (before ++ matched m0 ++ extractCode t)
          /\ t = before ++ matched m0 ++ extractCode t ++ matched m1 ++ after).
Proof.
  pose proof (delimiters_located t) as Hloc.
  unfold extractCode. fold (delimiters t).
  repeat split.
  - intros ->. reflexivity.
  - intros m Hm. rewrite Hm in *. cbn [located] in Hloc.
    destruct Hloc as (_ & Hle & Hw & _).
    exists (firstn (index m) t). split.
    + rewrite length_firstn. lia.
    + rewrite slice_from_inside by exact Hle.
      apply split_at_match; assumption.
  - intros m0 m1 later Hm. rewrite Hm in *. cbn [located] in Hloc.
    destruct Hloc as (_ & Hle0 & Hw0 & Hord & Hle1 & Hw1 & _).
    exists (firstn (index m0) t),
           (skipn (index m1 + length (matched m1)) t).
    assert (Hmid : JsString.slice t (index m0 + length (matched m0)) (index m1)
                   = firstn (index m1 - (index m0 + length (matched m0)))
                       (skipn (index m0 + length (matched m0)) t))
      by (apply slice_inside; lia).
    rewrite Hmid.
    assert (Hlen : length (firstn (index m1 - (index m0 + length (matched m0)))
                       (skipn (index m0 + length (matched m0)) t))
                   = index m1 - (index m0 + length (matched m0))).
    { rewrite length_firstn, length_skipn. lia. }
    repeat split.
    + rewrite length_firstn. lia.
    + rewrite !length_app, Hlen, length_firstn. lia.
    + rewrite (split_at_match _ _ Hle0 Hw0) at 1.
      do 2 f_equal.
      set (a := index m0 + length (matched m0)) in *.
      rewrite <- (firstn_skipn (index m1 - a) (skipn a t)) at 1.
      f_equal. rewrite skipn_skipn.
      replace (index m1 - a + a) with (index m1) by lia.
      rewrite <- (firstn_skipn (length (matched m1)) (skipn (index m1) t)) at 1.
      rewrite Hw1, skipn_skipn. do 2 f_equal. lia.
Qed.

(** ** How the greedy quantifiers behave *)

Lemma star_greedy (cls : ascii -> bool) (k : text -> option nat)
    (w rest : text) :
  Forall (fun c => cls c = true) w ->
  match rest with [] => True | c :: _ => cls c = false end ->
  (k rest = None -> forall c s, cls c = true -> k (c :: s) = None) ->
  star cls k (w ++ rest) = option_map (Nat.add (length w)) (k rest).
Proof.
  intros Hw Hrest Hk. induction Hw as [|c w Hc Hw IH]; simpl.
  - destruct rest as [|c rest]; simpl.
    + destruct (k []); reflexivity.
    + rewrite Hrest. destruct (k (c :: rest)); reflexivity.
  - rewrite Hc, IH. destruct (k rest) as [m|] eqn:E; simpl.
    + reflexivity.
    + apply Hk; [reflexivity | exact Hc].
Qed.

Lemma star_sound (cls : ascii -> bool) (k : text -> option nat) :
  forall s n, star cls k s = Some n ->
  exists w rest m,
    s = w ++ rest /\ Forall (fun c => cls c = true) w
    /\ k rest = Some m /\ n = length w + m.
Proof.
  induction s as [|c s IH]; intros n H; simpl in H.
  - exists [], [], n. repeat split; auto.
  - destruct (cls c) eqn:Hc.
    + destruct (star cls k s) as [m|] eqn:E.
      * injection H as <-.
        destruct (IH m eq_refl) as (w & rest & m' & -> & Hw & Hk & ->).
        exists (c :: w), rest, m'. repeat split; auto.
      * exists [], (c :: s), n. repeat split; auto.
    + exists [], (c :: s), n. repeat split; auto.
Qed.

Lemma star_total (cls : ascii -> bool) (k : text -> option nat) :
  (forall s, k s <> None) -> forall s, star cls k s <> None.
Proof.
  intros Hk s; induction s as [|c s IH]; simpl.
  - apply Hk.
  - destruct (cls c); [|apply Hk].
    destruct (star cls k s); [discriminate | apply Hk].
Qed.

Lemma is_char_true (a c : ascii) : is_char a c = true <-> c = a.
Proof.
  unfold is_char. rewrite Ascii.eqb_eq. split; intros; subst; reflexivity.
Qed.

Lemma is_char_false (a c : ascii) : c <> a -> is_char a c = false.
Proof.
  intros H. destruct (is_char a c) eqn:E; [|reflexivity].
  apply is_char_true in E. contradiction.
Qed.

Lemma all_spaces (w : text) :
  Forall (fun c => is_char space c = true) w -> w = spaces (length w).
Proof.
  induction 1 as [|c w Hc Hw IH]; simpl; [reflexivity|].
  apply is_char_true in Hc. subst c. unfold spaces in *. simpl.
  f_equal. exact IH.
Qed.

Lemma spaces_all (n : nat) :
  Forall (fun c => is_char space c = true) (spaces n).
Proof.
  induction n; simpl; constructor; [reflexivity | assumption].
Qed.

Lemma length_spaces (n : nat) : length (spaces n) = n.
Proof. apply repeat_length. Qed.

Lemma fence_tail_total (s : text) : exec fence_tail s <> None.
Proof.
  unfold fence_tail. cbn [exec].
  apply star_total. intros s1. apply star_total. intros s2.
  destruct s2 as [|c s2]; [discriminate|].
  destruct (is_char newline c); discriminate.
Qed.

Lemma fence_tail_line (tag : text) (trail : nat) (rest : text) :
  Forall (fun c => is_word c = true) tag ->
  exec fence_tail (tag ++ spaces trail ++ newline :: rest)
  = Some (length tag + (trail + 1)).
Proof.
  intros Htag. unfold fence_tail. cbn [exec].
  assert (Hinner : star (is_char space)
            (fun s => match s with
                      | [] => Some 0
                      | c :: s' => if is_char newline c then Some 1 else Some 0
                      end) (spaces trail ++ newline :: rest)
          = Some (trail + 1)).
  { rewrite star_greedy.
    - simpl. rewrite length_spaces. reflexivity.
    - apply spaces_all.
    - reflexivity.
    - simpl. discriminate. }
  rewrite star_greedy.
  - cbn [exec] in *. rewrite Hinner. reflexivity.
  - exact Htag.
  - destruct trail; reflexivity.
  - cbn [exec]. rewrite Hinner. discriminate.
Qed.

Lemma codeBlockExp_split :
  codeBlockExp
  = Opt (is_char newline) :: Star (is_char space)
      :: One (is_char backtick) :: One (is_char backtick)
      :: One (is_char backtick) :: fence_tail.
Proof. reflexivity. Qed.

Lemma exec_ticks (r : regexp) (rest : text) :
  exec (One (is_char backtick) :: One (is_char backtick)
          :: One (is_char backtick) :: r) (ticks 3 ++ rest)
  = option_map (Nat.add 3) (exec r rest).
Proof.
  cbn. destruct (exec r rest); reflexivity.
Qed.

Lemma exec_ticks_head (r : regexp) (c : ascii) (s : text) :
  c <> backtick ->
  exec (One (is_char backtick) :: r) (c :: s) = None.
Proof.
  intros H. cbn [exec]. rewrite is_char_false by exact H. reflexivity.
Qed.

Lemma exec_opt_cons (cls : ascii -> bool) (r : regexp) (c : ascii) (s : text) :
  exec (Opt cls :: r) (c :: s)
  = if cls c then
      match exec r s with
      | Some n => Some (S n)
      | None => exec r (c :: s)
      end
    else exec r (c :: s).
Proof. reflexivity. Qed.

Lemma exec_opt_nil (cls : ascii -> bool) (r : regexp) :
  exec (Opt cls :: r) [] = exec r [].
Proof. reflexivity. Qed.

(** A delimiter is matched in full from its first character. *)
Lemma exec_fence (nl : bool) (indent : nat) (rest : text) :
  exec codeBlockExp (opt_newline nl ++ spaces indent ++ ticks 3 ++ rest)
  = option_map (Nat.add (length (opt_newline nl) + indent + 3))
      (exec fence_tail rest).
Proof.
  rewrite codeBlockExp_split.
  set (r3 := One (is_char backtick) :: One (is_char backtick)
               :: One (is_char backtick) :: fence_tail).
  assert (Hstar : exec (Star (is_char space) :: r3)
                    (spaces indent ++ ticks 3 ++ rest)
                  = option_map (Nat.add (indent + 3)) (exec fence_tail rest)).
  { cbn [exec]. rewrite star_greedy.
    - unfold r3. rewrite exec_ticks, length_spaces.
      destruct (exec fence_tail rest); simpl; [f_equal; lia | reflexivity].
    - apply spaces_all.
    - reflexivity.
    - intros _ c s Hc. apply is_char_true in Hc. subst c.
      apply exec_ticks_head. discriminate. }
  destruct nl; cbn [opt_newline app length].
  - rewrite exec_opt_cons.
    change (is_char newline newline) with true. cbv iota.
    rewrite Hstar.
    destruct (exec fence_tail rest) as [m|] eqn:E; simpl.
    + reflexivity.
    + destruct (fence_tail_total _ E).
  - change (0 + indent + 3) with (indent + 3). rewrite <- Hstar.
    destruct indent; reflexivity.
Qed.

(** Conversely, a match can only start on such a delimiter. *)
Lemma exec_codeBlockExp_shape (s : text) (n : nat) :
  exec codeBlockExp s = Some n ->
  exists nl indent rest,
    s = opt_newline nl ++ spaces indent ++ ticks 3 ++ rest.
Proof.
  rewrite codeBlockExp_split.
  set (r3 := One (is_char backtick) :: One (is_char backtick)
               :: One (is_char backtick) :: fence_tail).
  assert (Hstar : forall s m, exec (Star (is_char space) :: r3) s = Some m ->
            exists indent rest, s = spaces indent ++ ticks 3 ++ rest).
  { intros s0 m H. cbn [exec] in H. apply star_sound in H.
    destruct H as (w & rest & m' & -> & Hw & Hk & _).
    exists (length w).
    rewrite <- (all_spaces Hw).
    unfold r3 in Hk.
    destruct rest as [|c1 [|c2 [|c3 rest]]]; cbn [exec option_map] in Hk;
      try discriminate.
    - destruct (is_char backtick c1); discriminate.
    - destruct (is_char backtick c1); [|discriminate].
      destruct (is_char backtick c2); discriminate.
    - destruct (is_char backtick c1) eqn:E1; [|discriminate].
      destruct (is_char backtick c2) eqn:E2; [|discriminate].
      destruct (is_char backtick c3) eqn:E3; [|discriminate].
      apply is_char_true in E1, E2, E3. subst.
      exists rest. reflexivity. }
  intros H.
  destruct s as [|c s].
  - rewrite exec_opt_nil in H.
    apply Hstar in H. destruct H as (indent & rest & ->).
    exists false, indent, rest. reflexivity.
  - rewrite exec_opt_cons in H. destruct (is_char newline c) eqn:Hc.
    + destruct (exec (Star (is_char space) :: r3) s) as [m|] eqn:E.
      * apply Hstar in E. destruct E as (indent & rest & ->).
        apply is_char_true in Hc. subst c.
        exists true, indent, rest. reflexivity.
      * apply Hstar in H. destruct H as (indent & rest & ->).
        exists false, indent, rest. reflexivity.
    + apply Hstar in H. destruct H as (indent & rest & ->).
      exists false, indent, rest. reflexivity.
Qed.

(** ** Stepping through [matchAll] *)

Lemma matchAll_from_miss (r : regexp) (pos : nat) (c : ascii) (s : text) :
  exec r (c :: s) = None ->
  matchAll_from r pos (c :: s) = matchAll_from r (S pos) s.
Proof.
  intros H. simp matchAll_from. rewrite H. reflexivity.
Qed.

Lemma matchAll_from_end (r : regexp) (pos : nat) :
  exec r [] = None -> matchAll_from r pos [] = [].
Proof.
  intros H. simp matchAll_from. rewrite H. reflexivity.
Qed.

Lemma matchAll_from_hit (r : regexp) (pos : nat) (s : text) (n : nat) :
  exec r s = Some n -> 0 < n ->
  matchAll_from r pos s
  = mkMatch pos (firstn n s) :: matchAll_from r (pos + n) (skipn n s).
Proof.
  intros H Hn. pose proof (exec_le r s H) as Hle.
  destruct s as [|c s]; [simpl in Hle; lia|].
  destruct n as [|n]; [lia|].
  simp matchAll_from. rewrite H. reflexivity.
Qed.

Lemma matchAll_from_skip (r : regexp) (rest : text) :
  forall before pos,
  (forall b1 b2, before = b1 ++ b2 -> b2 <> [] -> exec r (b2 ++ rest) = None) ->
  matchAll_from r pos (before ++ rest)
  = matchAll_from r (pos + length before) rest.
Proof.
  induction before as [|c before IH]; intros pos H.
  - simpl. rewrite Nat.add_0_r. reflexivity.
  - cbn [app length]. rewrite matchAll_from_miss.
    + rewrite IH.
      * f_equal. lia.
      * intros b1 b2 -> Hb2. apply (H (c :: b1) b2); [reflexivity | exact Hb2].
    + apply (H [] (c :: before)); [reflexivity | discriminate].
Qed.

Lemma matchAll_from_none (r : regexp) :
  forall s pos,
  (forall b1 b2, s = b1 ++ b2 -> exec r b2 = None) ->
  matchAll_from r pos s = [].
Proof.
  induction s as [|c s IH]; intros pos H.
  - apply matchAll_from_end. apply (H [] []). reflexivity.
  - rewrite matchAll_from_miss.
    + apply IH. intros b1 b2 ->. apply (H (c :: b1) b2). reflexivity.
    + apply (H [] (c :: s)). reflexivity.
Qed.

(** ** Where no delimiter can start *)

Lemma no_backtick_app (a b : text) :
  no_backtick (a ++ b) <-> no_backtick a /\ no_backtick b.
Proof. unfold no_backtick. apply Forall_app. Qed.

Lemma no_backtick_blank (nl : bool) (indent : nat) :
  no_backtick (opt_newline nl ++ spaces indent).
Proof.
  apply no_backtick_app. split.
  - destruct nl; repeat constructor. discriminate.
  - unfold no_backtick, spaces. apply Forall_forall. intros c Hc.
    apply repeat_spec in Hc. subst c. discriminate.
Qed.

Lemma first_backtick_unique :
  forall p1 p2 a b : text,
  no_backtick p1 -> no_backtick p2 ->
  p1 ++ backtick :: a = p2 ++ backtick :: b -> p1 = p2.
Proof.
  induction p1 as [|c p1 IH]; intros [|d p2] a b H1 H2 E; simpl in E.
  - reflexivity.
  - injection E as E _. inversion H2; subst. congruence.
  - injection E as E _. inversion H1; subst. congruence.
  - injection E as -> E. f_equal.
    inversion H1; inversion H2; subst. eapply IH; eauto.
Qed.

Lemma blank_not_after (b : text) (nlA : bool) (spA : nat) (nl : bool)
    (sp : nat) :
  b <> [] ->
  (nlA = false -> ends_clean b) ->
  b ++ opt_newline nlA ++ spaces spA <> opt_newline nl ++ spaces sp.
Proof.
  intros Hb Hclean E.
  destruct nlA.
  - (* the text goes on with a line break, which the match cannot reach *)
    assert (Htail : forall c w, c :: w = opt_newline nl ++ spaces sp ->
              Forall (fun x => x = space) w).
    { intros c w Hw. unfold spaces in Hw.
      destruct nl; cbn [opt_newline app] in Hw.
      - injection Hw as _ ->. apply Forall_forall. intros x Hx.
        apply repeat_spec in Hx. exact Hx.
      - destruct sp as [|sp]; [discriminate|]. cbn [repeat] in Hw.
        injection Hw as _ ->.
        apply Forall_forall. intros x Hx.
        apply repeat_spec in Hx. exact Hx. }
    destruct b as [|c b]; [contradiction|].
    specialize (Htail c _ E).
    apply Forall_app in Htail. destruct Htail as [_ Htail].
    simpl in Htail. inversion Htail; subst. discriminate.
  - destruct (exists_last Hb) as (b' & x & ->).
    destruct (Hclean eq_refl b' x eq_refl) as [Hsp Hnl].
    assert (Hin : In x (opt_newline nl ++ spaces sp)).
    { rewrite <- E. rewrite <- app_assoc. apply in_or_app. right.
      left. reflexivity. }
    apply in_app_or in Hin. destruct Hin as [Hin|Hin].
    + destruct nl; simpl in Hin; [|contradiction].
      destruct Hin as [Hin|[]]. congruence.
    + apply repeat_spec in Hin. contradiction.
Qed.

Lemma exec_before_fence (b : text) (nlA : bool) (spA : nat) (rest : text) :
  b <> [] -> no_backtick b ->
  (nlA = false -> ends_clean b) ->
  exec codeBlockExp (b ++ opt_newline nlA ++ spaces spA ++ ticks 3 ++ rest)
  = None.
Proof.
  intros Hb Hnb Hclean.
  destruct (exec codeBlockExp _) as [n|] eqn:E; [|reflexivity].
  apply exec_codeBlockExp_shape in E.
  destruct E as (nl & sp & rest' & E).
  exfalso. apply (@blank_not_after b nlA spA nl sp Hb Hclean).
  apply first_backtick_unique
    with (a := ticks 2 ++ rest) (b := ticks 2 ++ rest').
  - apply no_backtick_app. split; [exact Hnb | apply no_backtick_blank].
  - apply no_backtick_blank.
  - rewrite <- !app_assoc. exact E.
Qed.


Lemma ends_clean_suffix (b1 b2 : text) :
  ends_clean (b1 ++ b2) -> ends_clean b2.
Proof.
  intros H t' c ->. apply (H (b1 ++ t') c). rewrite app_assoc. reflexivity.
Qed.

(** ** What a match covers *)

Lemma fence_tail_sound (s : text) (m : nat) :
  exec fence_tail s = Some m ->
  exists tag trail nl rest,
    s = tag ++ spaces trail ++ opt_newline nl ++ rest
    /\ m = length tag + trail + length (opt_newline nl)
    /\ Forall (fun c => is_word c = true) tag.
Proof.
  unfold fence_tail. cbn [exec]. intros H.
  apply star_sound in H.
  destruct H as (tag & s1 & m1 & -> & Htag & H & ->).
  apply star_sound in H.
  destruct H as (sp & s2 & m2 & -> & Hsp & H & ->).
  destruct s2 as [|c s2].
  - injection H as <-. exists tag, (length sp), false, [].
    rewrite <- (all_spaces Hsp).
    split; [reflexivity|]. split; [simpl; lia | exact Htag].
  - destruct (is_char newline c) eqn:Hc.
    + injection H as <-. apply is_char_true in Hc. subst c.
      exists tag, (length sp), true, s2.
      rewrite <- (all_spaces Hsp).
      split; [reflexivity|]. split; [simpl; lia | exact Htag].
    + injection H as <-. exists tag, (length sp), false, (c :: s2).
      rewrite <- (all_spaces Hsp).
      split; [reflexivity|]. split; [simpl; lia | exact Htag].
Qed.

(** A match of [codeBlockExp] covers an optional line break, spaces,
    three backticks, word characters, spaces and an optional line
    break, and nothing else. *)
Lemma exec_codeBlockExp_sound (s : text) (n : nat) :
  exec codeBlockExp s = Some n ->
  exists nl indent tag trail nl',
    firstn n s
    = opt_newline nl ++ spaces indent ++ ticks 3 ++ tag ++ spaces trail
        ++ opt_newline nl'
    /\ Forall (fun c => is_word c = true) tag
    /\ 3 <= n <= length s.
Proof.
  intros H. pose proof (exec_le _ _ H) as Hle.
  pose proof H as Hshape. apply exec_codeBlockExp_shape in Hshape.
  destruct Hshape as (nl & indent & rest & ->).
  rewrite exec_fence in H.
  destruct (exec fence_tail rest) as [m|] eqn:E; [|discriminate].
  injection H as <-.
  destruct (fence_tail_sound _ E) as (tag & trail & nl' & rest' & -> & -> & Htag).
  exists nl, indent, tag, trail, nl'.
  repeat split; try assumption; try lia.
  set (w := opt_newline nl ++ spaces indent ++ ticks 3 ++ tag ++ spaces trail
              ++ opt_newline nl').
  replace (opt_newline nl ++ spaces indent ++ ticks 3
             ++ tag ++ spaces trail ++ opt_newline nl' ++ rest')
    with (w ++ rest') by (unfold w; rewrite <- !app_assoc; reflexivity).
  replace (length (opt_newline nl) + indent + 3
           + (length tag + trail + length (opt_newline nl')))
    with (length w).
  - rewrite firstn_app, Nat.sub_diag, firstn_all. cbn [firstn].
    apply app_nil_r.
  - unfold w. rewrite !length_app, !length_spaces. simpl. lia.
Qed.

Lemma matchAll_from_matches (r : regexp) (pos : nat) (s : text) :
  Forall (fun m => exists b,
            exec r b = Some (length (matched m))
            /\ firstn (length (matched m)) b = matched m)
         (matchAll_from r pos s).
Proof.
  funelim (matchAll_from r pos s).
  - constructor; [|constructor]. exists []. cbn [matched length].
    pose proof (exec_le _ _ Heq) as Hn. simpl in Hn.
    assert (n = 0) by lia. subst n. split; [exact Heq | reflexivity].
  - constructor.
  - constructor; [|exact H]. exists (c :: s'). cbn [matched length].
    split; [exact Heq | reflexivity].
  - constructor; [|exact H]. exists (c :: s'). unfold matched.
    pose proof (exec_le _ _ Heq) as Hle.
    assert (Hlen : length (firstn (S n) (c :: s')) = S n)
      by (rewrite length_firstn; lia).
    rewrite Hlen. split; [exact Heq | reflexivity].
  - exact H.
Qed.

(** ** Three-backtick fences *)

Lemma length_opening_fence (nl : bool) (indent : nat) (tag : text)
    (trail : nat) :
  length (opening_fence nl indent tag trail)
  = length (opt_newline nl) + indent + 3 + (length tag + (trail + 1)).
Proof.
  unfold opening_fence. rewrite !length_app, !length_spaces. simpl. lia.
Qed.

Lemma delimiters_opening (before rest tag : text) (nl : bool)
    (indent trail : nat) :
  no_backtick before ->
  Forall (fun c => is_word c = true) tag ->
  (nl = false -> ends_clean before) ->
  delimiters (before ++ opening_fence nl indent tag trail ++ rest)
  = mkMatch (length before) (opening_fence nl indent tag trail)
      :: matchAll_from codeBlockExp
           (length before + length (opening_fence nl indent tag trail)) rest.
Proof.
  intros Hnb Htag Hclean.
  unfold delimiters, matchAll.
  assert (Hshape : opening_fence nl indent tag trail ++ rest
                   = opt_newline nl ++ spaces indent ++ ticks 3
                       ++ (tag ++ spaces trail ++ newline :: rest)).
  { unfold opening_fence. rewrite <- !app_assoc. reflexivity. }
  rewrite matchAll_from_skip.
  - cbn [Nat.add].
    assert (Hexec : exec codeBlockExp (opening_fence nl indent tag trail ++ rest)
                    = Some (length (opening_fence nl indent tag trail))).
    { rewrite Hshape, exec_fence, fence_tail_line by exact Htag.
      rewrite length_opening_fence. reflexivity. }
    rewrite (@matchAll_from_hit _ _ _ _ Hexec).
    + rewrite firstn_app, Nat.sub_diag, firstn_all. cbn [firstn].
      rewrite app_nil_r.
      rewrite skipn_app, Nat.sub_diag, skipn_all. reflexivity.
    + rewrite length_opening_fence. lia.
  - intros b1 b2 -> Hb2. rewrite Hshape.
    apply no_backtick_app in Hnb. destruct Hnb as [_ Hnb].
    apply exec_before_fence; [exact Hb2 | exact Hnb |].
    intros H. eapply ends_clean_suffix. apply Hclean. exact H.
Qed.

Lemma matchAll_from_closing (pos : nat) (body after : text) (nl : bool)
    (indent : nat) :
  no_backtick body ->
  (nl = false -> ends_clean body) ->
  exists w later,
    matchAll_from codeBlockExp pos (body ++ closing_fence nl indent ++ after)
    = mkMatch (pos + length body) w :: later.
Proof.
  intros Hnb Hclean.
  assert (Hshape : closing_fence nl indent ++ after
                   = opt_newline nl ++ spaces indent ++ ticks 3 ++ after).
  { unfold closing_fence. rewrite <- !app_assoc. reflexivity. }
  rewrite matchAll_from_skip.
  - destruct (exec fence_tail after) as [m|] eqn:Em;
      [|destruct (fence_tail_total _ Em)].
    assert (Hexec : exec codeBlockExp (closing_fence nl indent ++ after)
                    = Some (length (opt_newline nl) + indent + 3 + m)).
    { rewrite Hshape, exec_fence, Em. reflexivity. }
    rewrite (@matchAll_from_hit _ _ _ _ Hexec) by lia.
    eexists _, _. reflexivity.
  - intros b1 b2 -> Hb2. rewrite Hshape.
    apply no_backtick_app in Hnb. destruct Hnb as [_ Hnb].
    apply exec_before_fence; [exact Hb2 | exact Hnb |].
    intros H. eapply ends_clean_suffix. apply Hclean. exact H.
Qed.



(** ** The pipelines *)

Section Pipelines.

Variable Num : Type.
Variable Tmpl : Type.
Context {decoders : Decoders Num}.

Notation Value := (JsValue Num).
Notation Schema := (ZodType Num).

(** *** The two loops *)

Lemma valid_elements_empty (element : Schema) (data : list Value)
    (lo hi : nat) :
  hi <= lo -> valid_elements element data lo hi = [].
Proof.
  intros H. unfold valid_elements.
  replace (hi - lo) with 0 by lia. reflexivity.
Qed.

Lemma valid_elements_step (element : Schema) (data : list Value)
    (lo hi : nat) :
  lo < hi ->
  valid_elements element data lo hi
  = yield_if_success lo (safeParse element (at_index data lo))
      ++ valid_elements element data (S lo) hi.
Proof.
  intros H. unfold valid_elements.
  replace (hi - lo) with (S (hi - S lo)) by lia. reflexivity.
Qed.

Lemma valid_elements_split (element : Schema) (data : list Value)
    (lo mid hi : nat) :
  lo <= mid -> mid <= hi ->
  valid_elements element data lo hi
  = valid_elements element data lo mid ++ valid_elements element data mid hi.
Proof.
  intros H1 H2. unfold valid_elements.
  replace (hi - lo) with ((mid - lo) + (hi - mid)) by lia.
  rewrite seq_app, flat_map_app.
  replace (lo + (mid - lo)) with mid by lia. reflexivity.
Qed.

Lemma accumulate_spec (element : Schema) (data : list Value)
    (i done : nat) :
  accumulate element data i done
  = (valid_elements element data i (length data - 1),
     done + (length data - 1 - i)).
Proof.
  funelim (accumulate element data i done).
  - rewrite H. cbn [fst snd].
    rewrite (@valid_elements_step element data i (length data - 1)) by lia.
    f_equal. lia.
  - rewrite valid_elements_empty by lia. f_equal. lia.
Qed.

Lemma drain_from_spec (element : Schema) (data : list Value) (i : nat) :
  drain_from element data i = valid_elements element data i (length data).
Proof.
  funelim (drain_from element data i).
  - rewrite H. symmetry. apply valid_elements_step. exact l.
  - symmetry. apply valid_elements_empty. lia.
Qed.

(** *** One event *)

Lemma on_event_array (parse : Value -> option Value) (element : Schema)
    (st : StreamState) (event : list Choice) (m : text)
    (items : list Value) :
  first_content event = Some m -> m <> [] ->
  parseAny (extractCode (buffer st ++ m)) = JArr items ->
  on_event (ZodArray parse element) st event
  = (valid_elements element items (itemsDone st) (length items - 1),
     {| buffer := buffer st ++ m;
        itemsDone := itemsDone st + (length items - 1 - itemsDone st) |}).
Proof.
  intros Hm Hne Hdata. unfold on_event. rewrite Hm.
  destruct m as [|c m]; [contradiction|]. cbn [length Nat.eqb].
  rewrite Hdata, accumulate_spec. reflexivity.
Qed.

Lemma on_event_not_array (parse : Value -> option Value) (element : Schema)
    (st : StreamState) (event : list Choice) (m : text) :
  first_content event = Some m -> m <> [] ->
  (forall items, parseAny (extractCode (buffer st ++ m)) <> JArr items) ->
  on_event (ZodArray parse element) st event
  = ([], {| buffer := buffer st ++ m; itemsDone := itemsDone st |}).
Proof.
  intros Hm Hne Hdata. unfold on_event. rewrite Hm.
  destruct m as [|c m]; [contradiction|]. cbn [length Nat.eqb].
  destruct (parseAny (extractCode (buffer st ++ c :: m))) eqn:E;
    try reflexivity.
  destruct (Hdata _ eq_refl).
Qed.

Lemma on_event_ignored (s : Schema) (st : StreamState)
    (event : list Choice) :
  first_content event = None \/ first_content event = Some [] ->
  on_event s st event = ([], st).
Proof.
  intros [H|H]; unfold on_event; rewrite H; reflexivity.
Qed.

Lemma on_event_chunk (s : Schema) (st : StreamState)
    (event : list Choice) (m : text) :
  instanceof_ZodArray s = false ->
  first_content event = Some m -> m <> [] ->
  on_event s st event = ([Chunk m], st).
Proof.
  intros Hs Hm Hne. unfold on_event. rewrite Hm.
  destruct m as [|c m]; [contradiction|]. cbn [length Nat.eqb].
  destruct s; try reflexivity. discriminate.
Qed.

Lemma on_end_array (parse : Value -> option Value) (element : Schema)
    (st : StreamState) (items : list Value) :
  parseAny (extractCode (buffer st)) = JArr items ->
  on_end (ZodArray parse element) st
  = valid_elements element items (itemsDone st) (length items).
Proof.
  intros Hdata. unfold on_end. rewrite Hdata. apply drain_from_spec.
Qed.

(** *** Source indices *)

Lemma indices_app (a b : list (Yield Num)) :
  indices (a ++ b) = indices a ++ indices b.
Proof. unfold indices. apply flat_map_app. Qed.

Lemma indices_valid_elements_range (element : Schema) (data : list Value)
    (lo hi : nat) :
  Forall (fun i => lo <= i < hi) (indices (valid_elements element data lo hi)).
Proof.
  remember (hi - lo) as n eqn:Hn. revert lo Hn.
  induction n as [|n IH]; intros lo Hn.
  - rewrite valid_elements_empty by lia. constructor.
  - rewrite valid_elements_step by lia. rewrite indices_app.
    apply Forall_app. split.
    + destruct (safeParse element (at_index data lo)); simpl;
        repeat constructor; lia.
    + eapply Forall_impl; [|apply IH; lia].
      simpl. intros i Hi. lia.
Qed.

Lemma increasing_app (a b : list nat) :
  StronglySorted lt a -> StronglySorted lt b ->
  (forall x y, In x a -> In y b -> x < y) ->
  StronglySorted lt (a ++ b).
Proof.
  induction 1 as [|x a Ha IH Hx]; intros Hb Hab; simpl.
  - exact Hb.
  - constructor.
    + apply IH; [exact Hb|]. intros u v Hu Hv. apply Hab; [right|]; assumption.
    + apply Forall_app. split; [exact Hx|].
      apply Forall_forall. intros y Hy. apply Hab; [left; reflexivity | exact Hy].
Qed.

Lemma indices_valid_elements_increasing (element : Schema)
    (data : list Value) (lo hi : nat) :
  StronglySorted lt (indices (valid_elements element data lo hi)).
Proof.
  remember (hi - lo) as n eqn:Hn. revert lo Hn.
  induction n as [|n IH]; intros lo Hn.
  - rewrite valid_elements_empty by lia. constructor.
  - rewrite valid_elements_step by lia. rewrite indices_app.
    apply increasing_app.
    + destruct (safeParse element (at_index data lo)); simpl;
        repeat constructor.
    + apply IH. lia.
    + intros x y Hx Hy.
      pose proof (indices_valid_elements_range element data (S lo) hi) as Hr.
      rewrite Forall_forall in Hr. apply Hr in Hy.
      destruct (safeParse element (at_index data lo)); simpl in Hx.
      * destruct Hx as [<-|[]]. lia.
      * contradiction.
Qed.

(** What one event yields lies between the cursor before it and the
    cursor after it, in increasing order. *)
Lemma on_event_indices (s : Schema) (st : StreamState)
    (event : list Choice) :
  itemsDone st <= itemsDone (snd (on_event s st event))
  /\ StronglySorted lt (indices (fst (on_event s st event)))
  /\ Forall (fun i => itemsDone st <= i < itemsDone (snd (on_event s st event)))
       (indices (fst (on_event s st event))).
Proof.
  assert (Hidle : forall st' : StreamState,
             itemsDone st' = itemsDone st ->
             itemsDone st <= itemsDone (snd (@nil (Yield Num), st'))
             /\ StronglySorted lt (indices (fst (@nil (Yield Num), st')))
             /\ Forall (fun i => itemsDone st <= i < itemsDone (snd (@nil (Yield Num), st')))
                  (indices (fst (@nil (Yield Num), st')))).
  { intros st' E. simpl. rewrite E. repeat split; try constructor. }
  destruct (first_content event) as [m|] eqn:Hm.
  2:{ rewrite on_event_ignored by (left; exact Hm). apply Hidle. reflexivity. }
  destruct m as [|c m].
  { rewrite on_event_ignored by (right; exact Hm). apply Hidle. reflexivity. }
  destruct (instanceof_ZodArray s) eqn:Hs.
  2:{ rewrite (@on_event_chunk s st event (c :: m)) by (auto; discriminate).
      simpl. repeat split; try constructor. }
  destruct s as [|parse element| |]; try discriminate.
  destruct (parseAny (extractCode (buffer st ++ c :: m))) as [| | | | |items|]
    eqn:Hdata.
  6:{ rewrite (@on_event_array parse element st event (c :: m) items)
        by (auto; discriminate).
      cbn [fst snd itemsDone]. repeat split.
      - lia.
      - apply indices_valid_elements_increasing.
      - eapply Forall_impl;
          [|apply (indices_valid_elements_range element items (itemsDone st)
                     (length items - 1))].
        simpl. intros i Hi. lia. }
  all: rewrite (@on_event_not_array parse element st event (c :: m))
         by (auto; try discriminate; intros items; rewrite Hdata; discriminate).
  all: apply Hidle; reflexivity.
Qed.

(** *** A whole stream *)

Lemma on_events_indices (s : Schema) :
  forall events st,
  itemsDone st <= itemsDone (snd (on_events s st events))
  /\ StronglySorted lt (indices (fst (on_events s st events)))
  /\ Forall (fun i => itemsDone st <= i < itemsDone (snd (on_events s st events)))
       (indices (fst (on_events s st events))).
Proof.
  induction events as [|event events IH]; intros st; cbn [on_events fst snd].
  - repeat split; try constructor.
  - destruct (on_event_indices s st event) as (H1 & H2 & H3).
    destruct (IH (snd (on_event s st event))) as (G1 & G2 & G3).
    rewrite Forall_forall in H3, G3.
    repeat split.
    + lia.
    + rewrite indices_app. apply increasing_app; try assumption.
      intros x y Hx Hy. apply H3 in Hx. apply G3 in Hy. lia.
    + rewrite indices_app. apply Forall_app. split; apply Forall_forall;
        intros i Hi; [apply H3 in Hi | apply G3 in Hi]; lia.
Qed.

Lemma on_end_indices (s : Schema) (st : StreamState) :
  StronglySorted lt (indices (on_end s st))
  /\ Forall (fun i => itemsDone st <= i) (indices (on_end s st)).
Proof.
  unfold on_end. destruct s as [|parse element| |];
    try (split; constructor).
  destruct (parseAny (extractCode (buffer st))) as [| | | | |items|];
    try (split; constructor).
  rewrite drain_from_spec. split.
  - apply indices_valid_elements_increasing.
  - eapply Forall_impl; [|apply indices_valid_elements_range].
    simpl. intros i Hi. lia.
Qed.

Lemma stream_indices_increasing (p : Prompt Num Tmpl)
    (events : list (list Choice)) :
  StronglySorted lt (indices (stream p events)).
Proof.
  unfold stream. rewrite indices_app.
  destruct (on_events_indices (schema p) events initial) as (_ & H2 & H3).
  destruct (on_end_indices (schema p)
              (snd (on_events (schema p) initial events))) as (G2 & G3).
  rewrite Forall_forall in H3, G3.
  apply increasing_app; try assumption.
  intros x y Hx Hy. apply H3 in Hx. apply G3 in Hy. lia.
Qed.

Lemma increasing_NoDup (l : list nat) : StronglySorted lt l -> NoDup l.
Proof.
  induction 1 as [|x l Hl IH Hx]; constructor; [|exact IH].
  intros Hin. rewrite Forall_forall in Hx. apply Hx in Hin. lia.
Qed.

Lemma on_events_chunks (s : Schema) :
  instanceof_ZodArray s = false ->
  forall events st,
  on_events s st events = (map Chunk (fragments events), st).
Proof.
  intros Hs. induction events as [|event events IH]; intros st.
  - reflexivity.
  - cbn [on_events]. unfold fragments. cbn [flat_map]. fold (fragments events).
    destruct (first_content event) as [m|] eqn:Hm.
    2:{ rewrite on_event_ignored by (left; exact Hm).
        cbn [fst snd app]. rewrite IH. reflexivity. }
    destruct m as [|c m].
    { rewrite on_event_ignored by (right; exact Hm).
      cbn [fst snd app length Nat.eqb]. rewrite IH. reflexivity. }
    rewrite (@on_event_chunk s st event (c :: m)) by (auto; discriminate).
    cbn [fst snd length Nat.eqb app map]. rewrite IH. reflexivity.
Qed.

(** *** Streams whose arrays settle *)

Lemma fragments_app (a b : list (list Choice)) :
  fragments (a ++ b) = fragments a ++ fragments b.
Proof. unfold fragments. apply flat_map_app. Qed.

Lemma valid_elements_ext (element : Schema) (d1 d2 : list Value)
    (lo hi : nat) :
  (forall i, lo <= i < hi -> at_index d1 i = at_index d2 i) ->
  valid_elements element d1 lo hi = valid_elements element d2 lo hi.
Proof.
  remember (hi - lo) as n eqn:Hn. revert lo Hn.
  induction n as [|n IH]; intros lo Hn H.
  - rewrite !valid_elements_empty by lia. reflexivity.
  - rewrite !(@valid_elements_step element _ lo hi) by lia.
    rewrite H by lia. f_equal. apply IH; [lia|].
    intros i Hi. apply H. lia.
Qed.

Lemma at_index_firstn (d1 d2 : list Value) (n : nat) :
  firstn n d1 = firstn n d2 ->
  forall i, i < n -> at_index d1 i = at_index d2 i.
Proof.
  revert d1 d2. induction n as [|n IH]; intros d1 d2 H i Hi; [lia|].
  destruct d1 as [|x d1], d2 as [|y d2]; simpl in H; try discriminate.
  - reflexivity.
  - injection H as -> H. destruct i as [|i]; [reflexivity|].
    unfold at_index in *. simpl. apply IH; [exact H | lia].
Qed.

Section Settled.

Variable parse : Value -> option Value.
Variable element : Schema.
Variable events : list (list Choice).
Variable final : list Value.

Hypothesis Hfinal : candidate_after events (length events) = JArr final.
Hypothesis Hsettled : settled events final.

Lemma stream_settled_from :
  forall todo done st,
  events = done ++ todo ->
  buffer st = concat (fragments done) ->
  itemsDone st <= length final ->
  fst (on_events (ZodArray parse element) st todo)
    ++ on_end (ZodArray parse element)
         (snd (on_events (ZodArray parse element) st todo))
  = valid_elements element final (itemsDone st) (length final).
Proof.
  induction todo as [|event todo IH]; intros done st Hev Hbuf Hcur.
  - cbn [on_events fst snd app].
    apply on_end_array.
    rewrite Hbuf. rewrite app_nil_r in Hev. subst done.
    unfold candidate_after in Hfinal. rewrite firstn_all in Hfinal.
    exact Hfinal.
  - cbn [on_events fst snd].
    assert (Hev' : events = (done ++ [event]) ++ todo)
      by (rewrite <- app_assoc; exact Hev).
    assert (Hpre : firstn (S (length done)) events = done ++ [event]).
    { rewrite Hev'. rewrite firstn_app.
      replace (S (length done) - length (done ++ [event])) with 0
        by (rewrite length_app; cbn [length]; lia).
      rewrite firstn_all2 by (rewrite length_app; cbn [length]; lia).
      cbn [firstn]. apply app_nil_r. }
    destruct (first_content event) as [m|] eqn:Hm.
    2:{ rewrite on_event_ignored by (left; exact Hm). cbn [fst snd app].
        apply (IH (done ++ [event])); [exact Hev' | | exact Hcur].
        rewrite fragments_app. unfold fragments at 2. cbn [flat_map].
        rewrite Hm. rewrite !app_nil_r. exact Hbuf. }
    destruct m as [|c m].
    { rewrite on_event_ignored by (right; exact Hm). cbn [fst snd app].
      apply (IH (done ++ [event])); [exact Hev' | | exact Hcur].
      rewrite fragments_app. unfold fragments at 2. cbn [flat_map].
      rewrite Hm. cbn [length Nat.eqb]. rewrite !app_nil_r. exact Hbuf. }
    assert (Hbuf' : buffer st ++ c :: m
                    = concat (fragments (done ++ [event]))).
    { rewrite fragments_app, concat_app, <- Hbuf.
      unfold fragments. cbn [flat_map]. rewrite Hm. cbn [length Nat.eqb].
      cbn [app concat]. rewrite app_nil_r. reflexivity. }
    assert (Hcand : candidate_after events (S (length done))
                    = parseAny (extractCode (buffer st ++ c :: m))).
    { unfold candidate_after. rewrite Hpre, Hbuf'. reflexivity. }
    destruct (parseAny (extractCode (buffer st ++ c :: m)))
      as [| | | | |items|] eqn:Hdata.
    6:{ rewrite (@on_event_array parse element st event (c :: m) items)
          by (auto; discriminate).
        cbn [fst snd].
        destruct (Hsettled _ Hcand) as [Hlen Hagree].
        rewrite <- app_assoc.
        rewrite (IH (done ++ [event])); [| exact Hev' | exact Hbuf' |];
          cbn [itemsDone buffer]; [|lia].
        rewrite (@valid_elements_ext element items final)
          by (intros i Hi; apply (at_index_firstn _ _ Hagree); lia).
        destruct (le_lt_dec (length items - 1) (itemsDone st)) as [Hle|Hlt].
        - rewrite valid_elements_empty by exact Hle.
          replace (itemsDone st + (length items - 1 - itemsDone st))
            with (itemsDone st) by lia.
          reflexivity.
        - replace (itemsDone st + (length items - 1 - itemsDone st))
            with (length items - 1) by lia.
          symmetry. apply valid_elements_split; lia. }
    all: rewrite (@on_event_not_array parse element st event (c :: m))
           by (auto; try discriminate; intros items; rewrite Hdata; discriminate).
    all: cbn [fst snd app].
    all: apply (IH (done ++ [event])
                  {| buffer := buffer st ++ c :: m; itemsDone := itemsDone st |});
      [exact Hev' | exact Hbuf' | exact Hcur].
Qed.

End Settled.

(** *** The streaming pipeline: statements *)

(** C1, as the code has it.  Under an object schema [stream] passes every
    non-empty fragment on as it arrives, unchanged and in order; it
    yields nothing else, neither an element nor anything once the
    fragments are exhausted. *)
Theorem stream_object_passes_fragments (p : Prompt Num Tmpl)
    (parse : Value -> option Value) (events : list (list Choice)) :
  schema p = ZodObject parse ->
  stream p events = map Chunk (fragments events)
  /\ indices (stream p events) = []
  /\ (forall st, on_end (schema p) st = []).
Proof.
  intros Hs.
  assert (Hend : forall st, on_end (schema p) st = [])
    by (intros st; rewrite Hs; reflexivity).
  assert (Hall : stream p events = map Chunk (fragments events)).
  { unfold stream. rewrite on_events_chunks by (rewrite Hs; reflexivity).
    cbn [fst snd]. rewrite Hend. apply app_nil_r. }
  repeat split; try assumption.
  rewrite Hall. clear Hall. unfold indices.
  induction (fragments events) as [|m ms IH]; [reflexivity | exact IH].
Qed.

Lemma stream_emission_from (parse : Value -> option Value)
    (element : Schema) (events : list (list Choice)) :
  forall todo done st,
  events = done ++ todo ->
  buffer st = concat (fragments done) ->
  fst (on_events (ZodArray parse element) st todo)
    ++ on_end (ZodArray parse element)
         (snd (on_events (ZodArray parse element) st todo))
  = emission_from element events (length done) (itemsDone st) todo.
Proof.
  induction todo as [|event todo IH]; intros done st Hev Hbuf.
  - cbn [on_events fst snd app emission_from].
    rewrite app_nil_r in Hev. subst done.
    unfold candidate_after. rewrite firstn_all, <- Hbuf.
    unfold on_end.
    destruct (parseAny (extractCode (buffer st))); try reflexivity.
    apply drain_from_spec.
  - cbn [on_events fst snd emission_from].
    assert (Hev' : events = (done ++ [event]) ++ todo)
      by (rewrite <- app_assoc; exact Hev).
    assert (Hlen : length (done ++ [event]) = S (length done))
      by (rewrite length_app; cbn [length]; lia).
    assert (Hpre : firstn (S (length done)) events = done ++ [event]).
    { rewrite Hev'. rewrite firstn_app.
      replace (S (length done) - length (done ++ [event])) with 0 by lia.
      rewrite firstn_all2 by lia.
      cbn [firstn]. apply app_nil_r. }
    destruct (first_content event) as [[|c m]|] eqn:Hm.
    + rewrite on_event_ignored by (right; exact Hm). cbn [fst snd app].
      rewrite <- Hlen. apply (IH (done ++ [event])); [exact Hev'|].
      rewrite fragments_app. unfold fragments at 2. cbn [flat_map].
      rewrite Hm. cbn [length Nat.eqb]. rewrite !app_nil_r. exact Hbuf.
    + assert (Hbuf' : buffer st ++ c :: m
                      = concat (fragments (done ++ [event]))).
      { rewrite fragments_app, concat_app, <- Hbuf.
        unfold fragments. cbn [flat_map]. rewrite Hm. cbn [length Nat.eqb].
        cbn [app concat]. rewrite app_nil_r. reflexivity. }
      assert (Hcand : candidate_after events (S (length done))
                      = parseAny (extractCode (buffer st ++ c :: m))).
      { unfold candidate_after. rewrite Hpre, Hbuf'. reflexivity. }
      rewrite Hcand.
      destruct (parseAny (extractCode (buffer st ++ c :: m)))
        as [| | | | |items|] eqn:Hdata.
      6:{ rewrite (@on_event_array parse element st event (c :: m) items)
            by (auto; discriminate).
          cbn [fst snd]. rewrite <- app_assoc. f_equal.
          rewrite <- Hlen.
          apply (IH (done ++ [event])
                   {| buffer := buffer st ++ c :: m;
                      itemsDone := itemsDone st
                                   + (length items - 1 - itemsDone st) |});
            [exact Hev' | exact Hbuf']. }
      all: rewrite (@on_event_not_array parse element st event (c :: m))
             by (auto; try discriminate;
                 intros items; rewrite Hdata; discriminate).
      all: cbn [fst snd app]; rewrite <- Hlen.
      all: apply (IH (done ++ [event])
                    {| buffer := buffer st ++ c :: m;
                       itemsDone := itemsDone st |});
        [exact Hev' | exact Hbuf'].
    + rewrite on_event_ignored by (left; exact Hm). cbn [fst snd app].
      rewrite <- Hlen. apply (IH (done ++ [event])); [exact Hev'|].
      rewrite fragments_app. unfold fragments at 2. cbn [flat_map].
      rewrite Hm. rewrite !app_nil_r. exact Hbuf.
Qed.

(** C2. Under an array schema, what [stream] yields over its events is
    the emission read off the accumulated buffer: each non-empty
    fragment after which the whole buffer parses to an array yields the
    valid elements from the cursor up to, but not including, the last,
    and moves the cursor past all of them, valid or not; the end of the
    stream yields the valid elements from the cursor through the last.
    Step by step: such a fragment, met in any state, yields just those
    elements, none of them the last, and leaves a cursor below which
    nothing is yielded later; and the end of the stream, met in any
    state, yields the elements from the cursor on. *)
Theorem sequence_emission (p : Prompt Num Tmpl)
    (parse : Value -> option Value) (element : Schema)
    (events : list (list Choice)) :
  schema p = ZodArray parse element ->
  stream p events = emission element events
  /\ (forall st event m items,
        first_content event = Some m ->
        m <> [] ->
        parseAny (extractCode (buffer st ++ m)) = JArr items ->
        on_event (schema p) st event
        = (valid_elements element items (itemsDone st) (length items - 1),
           {| buffer := buffer st ++ m;
              itemsDone := itemsDone st + (length items - 1 - itemsDone st) |})
        /\ Forall (fun i => itemsDone st <= i < length items - 1)
             (indices (fst (on_event (schema p) st event)))
        /\ (forall later,
              Forall (fun i =>
                        itemsDone st + (length items - 1 - itemsDone st) <= i)
                (indices
                   (fst (on_events (schema p)
                           (snd (on_event (schema p) st event)) later)
                    ++ on_end (schema p)
                         (snd (on_events (schema p)
                                 (snd (on_event (schema p) st event))
                                 later))))))
  /\ (forall st items,
        parseAny (extractCode (buffer st)) = JArr items ->
        on_end (schema p) st
        = valid_elements element items (itemsDone st) (length items)).
Proof.
  intros Hs. rewrite Hs. split; [|split].
  - unfold stream, emission. rewrite Hs.
    apply (@stream_emission_from parse element events events [] initial);
      reflexivity.
  - intros st event m items Hm Hne Hdata.
    pose proof (on_event_array parse element st event Hm Hne Hdata) as Hstep.
    split; [exact Hstep|]. split.
    + rewrite Hstep. cbn [fst]. apply indices_valid_elements_range.
    + intros later. rewrite Hstep. cbn [snd].
      set (st1 := {| buffer := buffer st ++ m;
                     itemsDone := itemsDone st
                                  + (length items - 1 - itemsDone st) |}).
      destruct (on_events_indices (ZodArray parse element) later st1)
        as (H1 & _ & H3).
      destruct (on_end_indices (ZodArray parse element)
                  (snd (on_events (ZodArray parse element) st1 later)))
        as (_ & G3).
      rewrite indices_app. apply Forall_app. split.
      * eapply Forall_impl; [|exact H3]. simpl. intros i Hi. lia.
      * eapply Forall_impl; [|exact G3]. simpl in *. intros i Hi. lia.
  - intros st items Hdata. apply on_end_array. exact Hdata.
Qed.

(** C3, as the code has it.  The cursor never decreases; the indices
    yielded over the whole stream increase strictly, so none is yielded
    twice; and a step that sees an array leaves the cursor at the larger
    of its old value and the index of the array's last element, so that
    a cursor within the array stays within it. *)
Theorem cursor_and_emission_order (p : Prompt Num Tmpl)
    (events : list (list Choice)) :
  (forall st event,
     itemsDone st <= itemsDone (snd (on_event (schema p) st event)))
  /\ StronglySorted lt (indices (stream p events))
  /\ NoDup (indices (stream p events))
  /\ (forall parse element st event m items,
        schema p = ZodArray parse element ->
        first_content event = Some m -> m <> [] ->
        parseAny (extractCode (buffer st ++ m)) = JArr items ->
        itemsDone (snd (on_event (schema p) st event))
        = Nat.max (itemsDone st) (length items - 1)
        /\ (itemsDone st <= length items ->
            itemsDone (snd (on_event (schema p) st event)) <= length items)).
Proof.
  split; [|split; [|split]].
  - intros st event. apply on_event_indices.
  - apply stream_indices_increasing.
  - apply increasing_NoDup, stream_indices_increasing.
  - intros parse element st event m items Hs Hm Hne Hdata.
    rewrite Hs.
    rewrite (on_event_array parse element st event Hm Hne Hdata).
    cbn [snd itemsDone]. lia.
Qed.

Lemma indices_valid_elements (element : Schema) (data : list Value)
    (lo hi : nat) :
  indices (valid_elements element data lo hi)
  = filter (fun i => match safeParse element (at_index data i) with
                     | Some _ => true
                     | None => false
                     end)
           (seq lo (hi - lo)).
Proof.
  unfold valid_elements, indices.
  induction (seq lo (hi - lo)) as [|i l IH]; [reflexivity|].
  cbn [flat_map filter]. rewrite flat_map_app, IH.
  destruct (safeParse element (at_index data i)); reflexivity.
Qed.

(** C4, as the code has it.  For any events the indices yielded
    increase strictly.  When the buffer of the whole stream parses to an
    array, and every array seen on the way agrees with it on all
    elements but its last, [stream] yields the valid elements of that
    array, in order, each with its index, so that the indices yielded
    are those of the valid elements of that array; and that array is the
    candidate [run] validates for the same fragments received as one
    text. *)
Theorem stream_yields_valid_elements_of_settled_array
    (p : Prompt Num Tmpl) (parse : Value -> option Value) (element : Schema)
    (events : list (list Choice)) :
  schema p = ZodArray parse element ->
  StronglySorted lt (indices (stream p events))
  /\ (forall final,
        candidate_after events (length events) = JArr final ->
        settled events final ->
        stream p events = valid_elements element final 0 (length final)
        /\ indices (stream p events)
           = filter (fun i => match safeParse element (at_index final i) with
                              | Some _ => true
                              | None => false
                              end)
                    (seq 0 (length final))
        /\ run p [{| content := Some (concat (fragments events)) |}]
           = ([Extracted (concat (fragments events));
               Parsed (extractCode (concat (fragments events)));
               Validated (JArr final)],
              parse (JArr final))).
Proof.
  intros Hs. split; [apply stream_indices_increasing|].
  intros final Hfinal Hsettled.
  assert (Hstream : stream p events
                    = valid_elements element final 0 (length final)).
  { unfold stream. rewrite Hs.
    apply (@stream_settled_from parse element events final Hfinal Hsettled
             events [] initial); [reflexivity | reflexivity | simpl; lia]. }
  split; [exact Hstream|]. split.
  - rewrite Hstream, indices_valid_elements, Nat.sub_0_r. reflexivity.
  - unfold run. cbn [first_content content]. rewrite Hs.
    cbn [instanceof_ZodArray instanceof_ZodObject instanceof_ZodString
         orb safeParse app].
    unfold candidate_after in Hfinal. rewrite firstn_all in Hfinal.
    rewrite Hfinal. reflexivity.
Qed.

(** *** The parser, the batch pipeline and the client: statements *)

(** C7. [parseAny] answers for every text, in a fixed order of
    preference: what the tolerant JSON decoder returns when it does not
    throw, else what the YAML decoder returns when it does not throw,
    else the text itself. *)
Theorem parseAny_priority (t : text) :
  (forall v, PartialJSON_parse t = Some v -> parseAny t = v)
  /\ (forall v, PartialJSON_parse t = None -> YAML_parse t = Some v ->
        parseAny t = v)
  /\ (PartialJSON_parse t = None -> YAML_parse t = None ->
        parseAny t = JStr t).
Proof.
  unfold parseAny. repeat split.
  - intros v ->. reflexivity.
  - intros v -> ->. reflexivity.
  - intros -> ->. reflexivity.
Qed.


(** C9. For a schema that is neither a string, an array nor an object
    schema, [run] parses the whole message text without extracting from
    it, and validates the outcome.  A string schema has its text
    validated as it is; an array or an object schema has it extracted,
    then parsed. *)
Theorem run_policy_by_schema (p : Prompt Num Tmpl) (choices : list Choice)
    (msg : text) :
  first_content choices = Some msg ->
  (forall parse, schema p = ZodOther parse ->
     run p choices
     = ([Parsed msg; Validated (parseAny msg)], parse (parseAny msg)))
  /\ (forall parse, schema p = ZodString parse ->
        run p choices = ([Validated (JStr msg)], parse (JStr msg)))
  /\ (forall parse, schema p = ZodObject parse ->
        run p choices
        = ([Extracted msg; Parsed (extractCode msg);
            Validated (parseAny (extractCode msg))],
           parse (parseAny (extractCode msg))))
  /\ (forall parse element, schema p = ZodArray parse element ->
        run p choices
        = ([Extracted msg; Parsed (extractCode msg);
            Validated (parseAny (extractCode msg))],
           parse (parseAny (extractCode msg)))).
Proof.
  intros Hmsg. unfold run. rewrite Hmsg.
  repeat split; intros; match goal with H : schema p = _ |- _ => rewrite H end;
    reflexivity.
Qed.

(** C10. A prompt created from a client that was given a default model
    carries that model, whatever model its own options name.  When the
    client was given none, the prompt is created with the model of its
    options; and the model of the options is the prompt's only then. *)
Theorem prompt_model_precedence (o : PromptPigOptions) (pp : PromptPig)
    (tmpl : Tmpl) (options : option (PromptOptions Num)) :
  new_PromptPig o = inr pp ->
  (forall m, opt_model o = Some m -> m <> [] ->
     exists p, prompt pp tmpl options = inr p /\ model p = m)
  /\ (forall m p, opt_model o = Some m -> prompt pp tmpl options = inr p ->
        model p = m)
  /\ (forall p, opt_model o = None -> prompt pp tmpl options = inr p ->
        exists po, options = Some po /\ po_model po = Some (model p))
  /\ (forall po m, opt_model o = None -> options = Some po ->
        po_model po = Some m -> m <> [] ->
        exists p, prompt pp tmpl options = inr p /\ model p = m).
Proof.
  intros Hnew.
  assert (Hmodel : pp_model pp = opt_model o).
  { unfold new_PromptPig in Hnew.
    destruct (negb _ && negb _); [discriminate|].
    injection Hnew as <-. reflexivity. }
  unfold prompt. rewrite Hmodel. split; [|split; [|split]].
  - intros m -> Hne. destruct m as [|c m]; [contradiction|].
    eexists. split; reflexivity.
  - intros m p -> Hp. destruct m as [|c m]; [discriminate|].
    injection Hp as <-. reflexivity.
  - intros p -> Hp.
    destruct options as [po|]; [|discriminate].
    exists po. split; [reflexivity|].
    destruct (po_model po) as [[|c m]|]; try discriminate.
    injection Hp as <-. reflexivity.
  - intros po m -> -> -> Hne. destruct m as [|c m]; [contradiction|].
    eexists. split; reflexivity.
Qed.

End Pipelines.

(** ** The statements on concrete inputs *)

(** The fenced array of the first end-to-end example falls under the
    third case of C5. *)
Lemma extractCode_by_delimiter_count_witness :
  delimiters (fenced 3 (txt "json") (txt "[1,2,3]"))
  = [ mkMatch 0 (ticks 3 ++ txt "json" ++ [newline]);
      mkMatch 15 (newline :: ticks 3) ]
  /\ exists before after,
       length before = 0
       /\ 15 = length (before ++ (ticks 3 ++ txt "json" ++ [newline])
                         ++ extractCode (fenced 3 (txt "json") (txt "[1,2,3]")))
       /\ fenced 3 (txt "json") (txt "[1,2,3]")
          = before ++ (ticks 3 ++ txt "json" ++ [newline])
              ++ extractCode (fenced 3 (txt "json") (txt "[1,2,3]"))
              ++ (newline :: ticks 3) ++ after.
Proof.
  split; [reflexivity|].
  exact (proj2 (proj2 (extractCode_by_delimiter_count
                         (fenced 3 (txt "json") (txt "[1,2,3]"))))
           (mkMatch 0 (ticks 3 ++ txt "json" ++ [newline]))
           (mkMatch 15 (newline :: ticks 3)) [] eq_refl).
Defined.



(** Under an object schema the fragments are yielded. *)
Lemma object_stream_yields_fragment :
  stream object_prompt [delta "{"] <> [].
Proof. vm_compute. discriminate. Qed.

Lemma stream_object_passes_fragments_witness :
  stream object_prompt [delta "{"; delta ""; delta "}"]
  = [Chunk (txt "{"); Chunk (txt "}")].
Proof.
  exact (proj1 (@stream_object_passes_fragments Z unit sample_decoders
                  object_prompt
                  (fun v => match v with JObj _ => Some v | _ => None end)
                  [delta "{"; delta ""; delta "}"] eq_refl)).
Defined.

Lemma sequence_emission_witness :
  stream numbers_prompt fenced_in_three = emission z_number fenced_in_three
  /\ emission z_number fenced_in_three
     = [Element 0 (JNum 1%Z); Element 1 (JNum 2%Z); Element 2 (JNum 3%Z)]
  /\ on_event (schema numbers_prompt)
       {| buffer := txt "[1,"; itemsDone := 0 |} (delta "2,3]")
     = ([Element 0 (JNum 1%Z); Element 1 (JNum 2%Z)],
        {| buffer := txt "[1,2,3]"; itemsDone := 2 |}).
Proof.
  destruct (@sequence_emission Z unit sample_decoders numbers_prompt
              (safeParse (z_array z_number)) z_number fenced_in_three
              eq_refl)
    as (Hstream & Hstep & _).
  split; [exact Hstream|]. split; [reflexivity|].
  destruct (Hstep {| buffer := txt "[1,"; itemsDone := 0 |} (delta "2,3]")
              (txt "2,3]") [JNum 1%Z; JNum 2%Z; JNum 3%Z])
    as [H _].
  - reflexivity.
  - discriminate.
  - reflexivity.
  - exact H.
Defined.

(** After an array of three elements the fence opens on an array of one:
    the cursor, at 2, is beyond it. *)
Lemma cursor_exceeds_candidate :
  ~ (forall items,
       parseAny (extractCode
                   (buffer (snd (on_events (schema numbers_prompt) initial
                                   array_then_fence))))
       = JArr items ->
       itemsDone (snd (on_events (schema numbers_prompt) initial
                         array_then_fence))
       <= length items).
Proof.
  intros H. specialize (H [JNum 4%Z] eq_refl).
  vm_compute in H. lia.
Qed.

Lemma cursor_and_emission_order_witness :
  itemsDone (snd (on_event (schema numbers_prompt)
                    {| buffer := txt "[1,"; itemsDone := 0 |} (delta "2,3]")))
  = 2
  /\ StronglySorted lt (indices (stream numbers_prompt array_then_fence)).
Proof.
  destruct (@cursor_and_emission_order Z unit sample_decoders numbers_prompt
              array_then_fence) as (_ & Hsorted & _ & Hstep).
  split; [|exact Hsorted].
  exact (proj1 (Hstep (safeParse (z_array z_number)) z_number
                  {| buffer := txt "[1,"; itemsDone := 0 |} (delta "2,3]")
                  (txt "2,3]") [JNum 1%Z; JNum 2%Z; JNum 3%Z]
                  eq_refl eq_refl
                  (fun E => @eq_ind text (txt "2,3]")
                              (fun t => match t with [] => False | _ => True end)
                              I [] E)
                  eq_refl)).
Defined.

(** The same fragments: [run] returns the array of one element, [stream]
    has yielded the first two elements of the array of three.  And an
    array whose first element is not valid is streamed from index 1. *)
Lemma stream_differs_from_batch :
  ~ (forall items,
       snd (run numbers_prompt
              [{| content := Some (concat (fragments array_then_fence)) |}])
       = Some (JArr items) ->
       map (@yielded_value Z) (stream numbers_prompt array_then_fence)
       = items)
  /\ indices (stream numbers_prompt [delta "[null,2,3]"]) = [1; 2].
Proof.
  split; [|reflexivity].
  intros H. specialize (H [JNum 4%Z] eq_refl).
  vm_compute in H. discriminate H.
Qed.

Lemma stream_yields_valid_elements_of_settled_array_witness :
  StronglySorted lt (indices (stream numbers_prompt array_then_fence))
  /\ stream numbers_prompt fenced_in_three
     = [Element 0 (JNum 1%Z); Element 1 (JNum 2%Z); Element 2 (JNum 3%Z)]
  /\ indices (stream numbers_prompt fenced_in_three) = [0; 1; 2]
  /\ run numbers_prompt
       [{| content := Some (concat (fragments fenced_in_three)) |}]
     = ([Extracted (concat (fragments fenced_in_three));
         Parsed (txt "[1,2,3]");
         Validated (JArr [JNum 1%Z; JNum 2%Z; JNum 3%Z])],
        Some (JArr [JNum 1%Z; JNum 2%Z; JNum 3%Z])).
Proof.
  split.
  - exact (proj1 (@stream_yields_valid_elements_of_settled_array Z unit
                    sample_decoders numbers_prompt
                    (safeParse (z_array z_number)) z_number
                    array_then_fence eq_refl)).
  - destruct (proj2 (@stream_yields_valid_elements_of_settled_array Z unit
                       sample_decoders numbers_prompt
                       (safeParse (z_array z_number)) z_number
                       fenced_in_three eq_refl)
                [JNum 1%Z; JNum 2%Z; JNum 3%Z])
      as (Hstream & Hind & Hrun).
    + reflexivity.
    + intros k items Hk.
      destruct k as [|[|[|[|k]]]]; vm_compute in Hk; try discriminate Hk;
        injection Hk as <-; split; simpl; try lia; reflexivity.
    + split; [exact Hstream|]. split; [exact Hind | exact Hrun].
Defined.

Lemma parseAny_priority_witness :
  parseAny (txt "[4]") = JArr [JNum 4%Z]
  /\ parseAny (txt "Here") = JStr (txt "Here")
  /\ parseAny (txt "oops: [") = JStr (txt "oops: [").
Proof.
  split; [|split].
  - exact (proj1 (parseAny_priority (txt "[4]")) _ eq_refl).
  - exact (proj1 (proj2 (parseAny_priority (txt "Here"))) _ eq_refl eq_refl).
  - exact (proj2 (proj2 (parseAny_priority (txt "oops: ["))) eq_refl eq_refl).
Defined.


Lemma run_policy_by_schema_witness :
  run number_prompt (delta "42")
  = ([Parsed (txt "42"); Validated (JNum 42%Z)], Some (JNum 42%Z)).
Proof.
  exact (proj1 (@run_policy_by_schema Z unit sample_decoders number_prompt
                  (delta "42") (txt "42") eq_refl)
           (fun v => match v with JNum _ => Some v | _ => None end) eq_refl).
Defined.

Lemma prompt_model_precedence_witness :
  (exists p,
     prompt sample_client tt
       (Some {| po_model := Some (txt "gpt-4o"); po_schema := Some z_number |})
     = inr p
     /\ model p = txt "deepseek/deepseek-r1")
  /\ (exists p,
        prompt {| pp_openai := pp_openai sample_client; pp_model := None |} tt
          (Some {| po_model := Some (txt "gpt-4o");
                   po_schema := Some z_number |})
        = inr p
        /\ model p = txt "gpt-4o").
Proof.
  split.
  - apply (proj1 (@prompt_model_precedence Z unit sample_options sample_client
                    tt
                    (Some {| po_model := Some (txt "gpt-4o");
                             po_schema := Some z_number |})
                    eq_refl)
             (txt "deepseek/deepseek-r1") eq_refl).
    discriminate.
  - apply (proj2 (proj2 (proj2
             (@prompt_model_precedence Z unit
                {| opt_openai := None;
                   opt_baseURL := Some (txt "https://openrouter.ai/api/v1");
                   opt_apiKey := Some (txt "your-api-key");
                   opt_model := None |}
                {| pp_openai := pp_openai sample_client; pp_model := None |}
                tt
                (Some {| po_model := Some (txt "gpt-4o");
                         po_schema := Some z_number |})
                eq_refl)))
             {| po_model := Some (txt "gpt-4o"); po_schema := Some z_number |}
             (txt "gpt-4o") eq_refl eq_refl eq_refl).
    discriminate.
Defined.

(** * Further properties of the code *)

(** ** The first entry of [matchAll] *)

Lemma matchAll_from_end_hit (r : regexp) (pos n : nat) :
  exec r [] = Some n -> matchAll_from r pos [] = [mkMatch pos []].
Proof.
  intros H. simp matchAll_from. rewrite H. reflexivity.
Qed.

Lemma matchAll_from_empty_hit (r : regexp) (pos : nat) (c : ascii)
    (s : text) :
  exec r (c :: s) = Some 0 ->
  matchAll_from r pos (c :: s) = mkMatch pos [] :: matchAll_from r (S pos) s.
Proof.
  intros H. simp matchAll_from. rewrite H. reflexivity.
Qed.

(** The first entry is the leftmost match: the pattern fails at every
    position before it, matches at its own, and the search goes on
    behind it. *)
Lemma matchAll_from_first (r : regexp) :
  forall s pos m ms,
  matchAll_from r pos s = m :: ms ->
  exists a rest,
    s = a ++ matched m ++ rest
    /\ index m = pos + length a
    /\ exec r (matched m ++ rest) = Some (length (matched m))
    /\ (forall b1 b2, a = b1 ++ b2 -> b2 <> [] ->
          exec r (b2 ++ matched m ++ rest) = None)
    /\ (matched m <> [] ->
          ms = matchAll_from r (index m + length (matched m)) rest).
Proof.
  induction s as [|c s IH]; intros pos m ms H.
  - destruct (exec r []) as [n|] eqn:E.
    + rewrite (matchAll_from_end_hit _ pos E) in H. injection H as <- <-.
      pose proof (exec_le r [] E) as Hn. simpl in Hn.
      assert (n = 0) by lia. subst n.
      exists [], []. cbn [matched index app length].
      repeat split; try assumption; try lia.
      * intros b1 b2 Hb Hne. destruct b1, b2; try discriminate.
        contradiction.
      * intros Hne. contradiction.
    + rewrite (matchAll_from_end _ pos E) in H. discriminate.
  - destruct (exec r (c :: s)) as [[|n]|] eqn:E.
    + rewrite (matchAll_from_empty_hit _ pos _ _ E) in H.
      injection H as <- <-.
      exists [], (c :: s). cbn [matched index app length].
      repeat split; try assumption; try lia.
      * intros b1 b2 Hb Hne. destruct b1, b2; try discriminate.
        contradiction.
      * intros Hne. contradiction.
    + rewrite (@matchAll_from_hit r pos (c :: s) (S n) E) in H by lia.
      pose proof (exec_le r (c :: s) E) as Hle.
      assert (Hlen : length (firstn (S n) (c :: s)) = S n)
        by (rewrite length_firstn; lia).
      pose proof (firstn_skipn (S n) (c :: s)) as Hsplit.
      set (w := firstn (S n) (c :: s)) in *.
      set (rest := skipn (S n) (c :: s)) in *.
      injection H as <- <-.
      exists [], rest. unfold index, matched.
      rewrite Hlen, Hsplit.
      split; [reflexivity|]. split; [simpl; lia|]. split; [exact E|].
      split.
      * intros b1 b2 Hb Hne. destruct b1, b2; try discriminate.
        contradiction.
      * intros _. reflexivity.
    + rewrite (matchAll_from_miss _ pos _ _ E) in H.
      destruct (IH (S pos) m ms H) as (a & rest & Hs & Hidx & Hex & Hno & Hms).
      exists (c :: a), rest. cbn [app length].
      repeat split.
      * rewrite Hs. reflexivity.
      * lia.
      * exact Hex.
      * intros b1 b2 Hb Hne. destruct b1 as [|d b1].
        -- cbn [app] in Hb. subst b2. cbn [app]. rewrite <- Hs. exact E.
        -- injection Hb as _ Hb. apply (Hno b1 b2 Hb Hne).
      * exact Hms.
Qed.

Lemma matchAll_from_nil_inv (r : regexp) :
  forall s pos,
  matchAll_from r pos s = [] ->
  forall b1 b2, s = b1 ++ b2 -> exec r b2 = None.
Proof.
  induction s as [|c s IH]; intros pos H b1 b2 Hs.
  - destruct b1, b2; try discriminate.
    destruct (exec r []) as [n|] eqn:E; [|reflexivity].
    rewrite (matchAll_from_end_hit _ pos E) in H. discriminate.
  - destruct (exec r (c :: s)) as [[|n]|] eqn:E.
    + rewrite (matchAll_from_empty_hit _ pos _ _ E) in H. discriminate.
    + rewrite (@matchAll_from_hit r pos (c :: s) (S n) E) in H by lia.
      discriminate.
    + rewrite (matchAll_from_miss _ pos _ _ E) in H.
      destruct b1 as [|d b1].
      * cbn [app] in Hs. subst b2. exact E.
      * injection Hs as _ Hs. apply (IH (S pos) H b1 b2 Hs).
Qed.

(** ** Where [codeBlockExp] matches *)

Lemma exec_codeBlockExp_iff (s : text) :
  exec codeBlockExp s <> None
  <-> exists nl indent rest,
        s = opt_newline nl ++ spaces indent ++ ticks 3 ++ rest.
Proof.
  split.
  - destruct (exec codeBlockExp s) as [n|] eqn:E; [|congruence].
    intros _. eapply exec_codeBlockExp_shape. exact E.
  - intros (nl & indent & rest & ->). rewrite exec_fence.
    destruct (exec fence_tail rest) as [m|] eqn:E; [discriminate|].
    destruct (fence_tail_total _ E).
Qed.

Lemma exec_codeBlockExp_more (s more : text) :
  exec codeBlockExp (s ++ more) = None -> exec codeBlockExp s = None.
Proof.
  intros H. destruct (exec codeBlockExp s) as [n|] eqn:E; [|reflexivity].
  exfalso. apply exec_codeBlockExp_shape in E.
  destruct E as (nl & indent & rest & ->).
  assert (Hsome : exec codeBlockExp
                    ((opt_newline nl ++ spaces indent ++ ticks 3 ++ rest)
                       ++ more) <> None).
  { apply exec_codeBlockExp_iff. exists nl, indent, (rest ++ more).
    rewrite <- !app_assoc. reflexivity. }
  contradiction.
Qed.

Lemma exec_codeBlockExp_nil : exec codeBlockExp [] = None.
Proof. reflexivity. Qed.

(** ** The window of the block extractor *)

Lemma slice_from_app (a rest : text) :
  JsString.slice_from (a ++ rest) (length a) = rest.
Proof.
  unfold JsString.slice_from. rewrite Nat.min_l by (rewrite length_app; lia).
  rewrite skipn_app, Nat.sub_diag, skipn_all. reflexivity.
Qed.

Lemma slice_app (a w rest : text) :
  JsString.slice (a ++ w ++ rest) (length a) (length a + length w) = w.
Proof.
  unfold JsString.slice.
  rewrite !Nat.min_l by (rewrite !length_app; lia).
  rewrite Nat.max_l by lia.
  replace (length a + length w - length a) with (length w) by lia.
  rewrite skipn_app, Nat.sub_diag, skipn_all. cbn [skipn app].
  rewrite firstn_app, Nat.sub_diag, firstn_all. cbn [firstn].
  apply app_nil_r.
Qed.

Lemma delimiter_not_empty (pos : nat) (s : text) (m : RegExpMatch)
    (ms : list RegExpMatch) :
  matchAll_from codeBlockExp pos s = m :: ms -> 3 <= length (matched m).
Proof.
  intros H. apply matchAll_from_first in H.
  destruct H as (a & rest & _ & _ & Hex & _).
  apply exec_codeBlockExp_sound in Hex.
  destruct Hex as (_ & _ & _ & _ & _ & _ & _ & Hlen). lia.
Qed.

Lemma extractCode_no_delimiter (t : text) :
  delimiters t = [] -> extractCode t = t.
Proof.
  intros H. unfold extractCode. fold (delimiters t). rewrite H. reflexivity.
Qed.

Lemma delimiters_nil_from (pos : nat) (s : text) :
  matchAll_from codeBlockExp pos s = [] -> delimiters s = [].
Proof.
  intros H. unfold delimiters, matchAll. apply matchAll_from_none.
  intros b1 b2 Hs. eapply matchAll_from_nil_inv; eauto.
Qed.

(** Either the text has no delimiter and is its own window, or the
    window is a part of the text in which no delimiter is left. *)
Lemma extractCode_window (t : text) :
  (delimiters t = [] /\ extractCode t = t)
  \/ (delimiters t <> []
      /\ delimiters (extractCode t) = []
      /\ exists before after, t = before ++ extractCode t ++ after).
Proof.
  destruct (delimiters t) as [|m0 ms] eqn:E.
  - left. split; [reflexivity | apply extractCode_no_delimiter; exact E].
  - right. split; [discriminate|].
    unfold delimiters, matchAll in E.
    pose proof (@delimiter_not_empty _ _ _ _ E) as Hlen0.
    destruct (@matchAll_from_first _ _ _ _ _ E)
      as (a & rest & Ht & Hidx & _ & _ & Hms).
    assert (Hne0 : matched m0 <> [])
      by (intros Hw; rewrite Hw in Hlen0; simpl in Hlen0; lia).
    specialize (Hms Hne0). cbn [Nat.add] in Hidx.
    destruct ms as [|m1 later].
    + assert (Hwin : extractCode t = rest).
      { unfold extractCode, matchAll. cbv zeta. rewrite E.
        rewrite Ht, Hidx, app_assoc, <- length_app. apply slice_from_app. }
      rewrite Hwin. split.
      * symmetry in Hms. eapply delimiters_nil_from. exact Hms.
      * exists (a ++ matched m0), []. rewrite app_nil_r, <- app_assoc.
        exact Ht.
    + symmetry in Hms.
      destruct (@matchAll_from_first _ _ _ _ _ Hms)
        as (a1 & rest1 & Hrest & Hidx1 & _ & Hno & _).
      assert (Hwin : extractCode t = a1).
      { unfold extractCode, matchAll. cbv zeta. rewrite E.
        rewrite Ht, Hrest, Hidx1, Hidx, app_assoc, <- length_app.
        apply slice_app. }
      rewrite Hwin. split.
      * unfold delimiters, matchAll. apply matchAll_from_none.
        intros b1 b2 Ha1. destruct b2 as [|c b2].
        -- apply exec_codeBlockExp_nil.
        -- eapply exec_codeBlockExp_more.
           apply (Hno b1 (c :: b2) Ha1). discriminate.
      * exists (a ++ matched m0), (matched m1 ++ rest1).
        rewrite <- app_assoc. rewrite Ht at 1. rewrite Hrest. reflexivity.
Qed.

(** X1. Whatever the text, the window is a contiguous part of it:
    the extractor only cuts, at both ends. *)
Theorem extractCode_is_part_of_text (t : text) :
  exists before after, t = before ++ extractCode t ++ after.
Proof.
  destruct (extractCode_window t) as [[_ H]|(_ & _ & H)].
  - exists [], []. rewrite H, app_nil_r. reflexivity.
  - exact H.
Qed.

(** X2. Once a text has a delimiter, its window has none; and extracting
    from a window gives the window again. *)
Theorem extractCode_idempotent (t : text) :
  (delimiters t <> [] -> delimiters (extractCode t) = [])
  /\ extractCode (extractCode t) = extractCode t.
Proof.
  destruct (extractCode_window t) as [[H0 H]|(Hne & Hnone & _)].
  - split; [intros Hne; contradiction|]. rewrite H. exact H.
  - split; [intros _; exact Hnone|].
    apply extractCode_no_delimiter. exact Hnone.
Qed.

(** X3. A text has a delimiter exactly when three backticks in a row
    occur somewhere in it, be it in the middle of a line; a text
    without them is its own window. *)
Theorem delimiters_iff_three_backticks (t : text) :
  (delimiters t <> [] <-> exists a b, t = a ++ ticks 3 ++ b)
  /\ ((forall a b, t <> a ++ ticks 3 ++ b) -> extractCode t = t).
Proof.
  assert (Hiff : delimiters t <> [] <-> exists a b, t = a ++ ticks 3 ++ b).
  { split.
    - destruct (delimiters t) as [|m ms] eqn:E; [congruence|]. intros _.
      unfold delimiters, matchAll in E.
      destruct (@matchAll_from_first _ _ _ _ _ E) as (a & rest & Ht & _ & Hex & _).
      apply exec_codeBlockExp_shape in Hex.
      destruct Hex as (nl & indent & rest' & Hw).
      exists (a ++ opt_newline nl ++ spaces indent), rest'.
      rewrite Ht, Hw, <- !app_assoc. reflexivity.
    - intros (a & b & Ht) Hnil.
      unfold delimiters, matchAll in Hnil.
      pose proof (@matchAll_from_nil_inv _ _ _ Hnil a (ticks 3 ++ b) Ht) as Hex.
      assert (Hsome : exec codeBlockExp (ticks 3 ++ b) <> None).
      { apply exec_codeBlockExp_iff. exists false, 0, b. reflexivity. }
      contradiction. }
  split; [exact Hiff|].
  intros Hno. apply extractCode_no_delimiter.
  destruct (delimiters t) as [|m ms] eqn:E; [reflexivity|].
  assert (Hne : m :: ms <> []) by discriminate.
  apply Hiff in Hne. destruct Hne as (a & b & Ht).
  destruct (Hno a b Ht).
Qed.

(** X4. Every delimiter found is an optional line break, spaces, exactly
    three backticks, a run of word characters, spaces and an optional
    line break; and the delimiters lie in the text in the order found,
    each where its index says, without overlapping. *)
Theorem delimiters_are_fences (t : text) :
  Forall (fun m =>
            exists nl indent tag trail nl',
              matched m
              = opt_newline nl ++ spaces indent ++ ticks 3 ++ tag
                  ++ spaces trail ++ opt_newline nl'
              /\ Forall (fun c => is_word c = true) tag)
         (delimiters t)
  /\ located t 0 (delimiters t).
Proof.
  split; [|apply delimiters_located].
  unfold delimiters, matchAll.
  eapply Forall_impl; [|apply matchAll_from_matches].
  intros m (b & Hex & Hm). cbv beta.
  apply exec_codeBlockExp_sound in Hex.
  destruct Hex as (nl & indent & tag & trail & nl' & Hshape & Htag & _).
  exists nl, indent, tag, trail, nl'. rewrite <- Hm. split; assumption.
Qed.

(** ** The client and its prompts *)

Lemma truthy_false (s : option text) :
  truthy s = false <-> s = None \/ s = Some [].
Proof.
  destruct s as [[|c s]|]; simpl; split; intros H; auto; try discriminate.
  destruct H as [H|H]; discriminate.
Qed.

(** X5. The constructor refuses its options exactly when no client is
    given and the base URL or the API key is missing or empty.  When it
    accepts, a given client is kept as it is, whatever base URL and key
    come with it; otherwise a client is made from the two; and the
    default model is stored as given. *)
Theorem new_PromptPig_outcome (o : PromptPigOptions) :
  ((exists e, new_PromptPig o = inl e)
   <-> opt_openai o = None
       /\ ((opt_baseURL o = None \/ opt_baseURL o = Some [])
           \/ (opt_apiKey o = None \/ opt_apiKey o = Some [])))
  /\ (forall pp, new_PromptPig o = inr pp ->
        pp_model pp = opt_model o
        /\ (forall c, opt_openai o = Some c -> pp_openai pp = c)
        /\ (opt_openai o = None ->
            pp_openai pp = NewOpenAI (opt_baseURL o) (opt_apiKey o))).
Proof.
  unfold new_PromptPig. split.
  - rewrite <- !truthy_false.
    destruct (opt_openai o) as [c|]; cbn [negb andb].
    + split.
      * intros (e & He). discriminate.
      * intros (Hc & _). discriminate.
    + destruct (truthy (opt_baseURL o)), (truthy (opt_apiKey o));
        cbn [negb andb]; split.
      all: try (intros (e & He); discriminate).
      all: try (intros (_ & [H|H]); discriminate).
      all: try (intros _; split; auto; fail).
      all: intros _; eexists; reflexivity.
  - intros pp H.
    destruct (negb _ && negb _); [discriminate|].
    injection H as <-. cbn [pp_model pp_openai].
    split; [reflexivity|]. split.
    + intros c ->. reflexivity.
    + intros ->. reflexivity.
Qed.

Section Prompts.

Variable Num : Type.
Variable Tmpl : Type.
Context {decoders : Decoders Num}.

Notation Value := (JsValue Num).
Notation Schema := (ZodType Num).

(** X6. [prompt] throws exactly when the client's default model is the
    empty string, or when the client has no default model and the
    options bring none or an empty one.  An empty default model is not
    replaced by the model of the options. *)
Theorem prompt_fails_iff (pp : PromptPig) (tmpl : Tmpl)
    (options : option (PromptOptions Num)) :
  (exists e, prompt pp tmpl options = inl e)
  <-> pp_model pp = Some []
      \/ (pp_model pp = None
          /\ (options = None
              \/ exists o, options = Some o
                           /\ (po_model o = None \/ po_model o = Some []))).
Proof.
  unfold prompt.
  destruct (pp_model pp) as [[|c m]|].
  - split; [intros _; left; reflexivity | intros _; eexists; reflexivity].
  - split.
    + intros (e & He). discriminate.
    + intros [H|(H & _)]; discriminate.
  - destruct options as [o|].
    + destruct (po_model o) as [[|c m]|] eqn:Eo.
      * split; [|intros _; eexists; reflexivity].
        intros _. right. split; [reflexivity|]. right.
        exists o. split; [reflexivity | right; exact Eo].
      * split.
        -- intros (e & He). discriminate.
        -- intros [H|(_ & [H|(o' & Ho & [H|H])])]; try discriminate.
           ++ injection Ho as <-. rewrite Eo in H. discriminate.
           ++ injection Ho as <-. rewrite Eo in H. discriminate.
      * split; [|intros _; eexists; reflexivity].
        intros _. right. split; [reflexivity|]. right.
        exists o. split; [reflexivity | left; exact Eo].
    + split; [|intros _; eexists; reflexivity].
      intros _. right. split; [reflexivity | left; reflexivity].
Qed.

(** X7. A prompt created without a schema carries the client of its
    maker and validates as [z.string()]: [run] returns the message text
    as it is, with no extraction and no parsing, and [stream] passes the
    non-empty fragments on. *)
Theorem prompt_without_schema (pp : PromptPig) (tmpl : Tmpl)
    (options : option (PromptOptions Num)) (p : Prompt Num Tmpl) :
  prompt pp tmpl options = inr p ->
  (options = None \/ exists o, options = Some o /\ po_schema o = None) ->
  openai p = pp_openai pp
  /\ template p = tmpl
  /\ (forall choices msg, first_content choices = Some msg ->
        run p choices = ([Validated (JStr msg)], Some (JStr msg)))
  /\ (forall events, stream p events = map Chunk (fragments events)).
Proof.
  intros Hp Hopt.
  assert (Hs : schema p = z_string Num /\ openai p = pp_openai pp
               /\ template p = tmpl).
  { unfold prompt in Hp.
    destruct (match pp_model pp with
              | Some m => Some m
              | None => match options with
                        | Some o => po_model o
                        | None => None
                        end
              end) as [[|c m]|]; try discriminate.
    injection Hp as <-. cbn [schema openai template new_Prompt].
    destruct Hopt as [->|(o & -> & ->)]; repeat split. }
  destruct Hs as (Hs & Hc & Ht).
  repeat split; try assumption.
  - intros choices msg Hmsg. unfold run. rewrite Hmsg, Hs. reflexivity.
  - intros events. unfold stream.
    rewrite on_events_chunks by (rewrite Hs; reflexivity).
    cbn [fst snd]. rewrite Hs. cbn [on_end z_string]. apply app_nil_r.
Qed.

End Prompts.

(** ** More on the streaming pipeline *)

Section Streams.

Variable Num : Type.
Variable Tmpl : Type.
Context {decoders : Decoders Num}.

Notation Value := (JsValue Num).
Notation Schema := (ZodType Num).

Lemma on_event_ext (s : Schema) (st : StreamState) (e1 e2 : list Choice) :
  first_content e1 = first_content e2 ->
  on_event s st e1 = on_event s st e2.
Proof.
  intros H. unfold on_event. rewrite H. reflexivity.
Qed.

Lemma on_events_fragments (s : Schema) :
  forall events st,
  on_events s st events
  = on_events s st (map (fun m => [{| content := Some m |}])
                        (fragments events)).
Proof.
  induction events as [|event events IH]; intros st.
  - reflexivity.
  - unfold fragments. cbn [flat_map]. fold (fragments events).
    destruct (first_content event) as [[|c m]|] eqn:Hm.
    + cbn [length Nat.eqb app on_events].
      rewrite on_event_ignored by (right; exact Hm).
      cbn [fst snd app]. rewrite <- IH.
      destruct (on_events s st events); reflexivity.
    + cbn [length Nat.eqb app map on_events].
      rewrite (@on_event_ext s st event [{| content := Some (c :: m) |}])
        by (rewrite Hm; reflexivity).
      rewrite <- IH. reflexivity.
    + cbn [app on_events].
      rewrite on_event_ignored by (left; exact Hm).
      cbn [fst snd app]. rewrite <- IH.
      destruct (on_events s st events); reflexivity.
Qed.

Lemma on_event_buffer (parse : Value -> option Value) (element : Schema)
    (st : StreamState) (event : list Choice) (m : text) :
  first_content event = Some m -> m <> [] ->
  buffer (snd (on_event (ZodArray parse element) st event)) = buffer st ++ m.
Proof.
  intros Hm Hne.
  destruct (parseAny (extractCode (buffer st ++ m))) as [| | | | |items|]
    eqn:Hdata.
  6:{ rewrite (on_event_array parse element st event Hm Hne Hdata).
      reflexivity. }
  all: rewrite (on_event_not_array parse element st event Hm Hne)
         by (intros items; rewrite Hdata; discriminate).
  all: reflexivity.
Qed.

Lemma valid_elements_validated (element : Schema) (data : list Value)
    (lo hi : nat) :
  Forall (fun y => exists i d,
            y = Element i d /\ lo <= i < hi
            /\ safeParse element (at_index data i) = Some d)
         (valid_elements element data lo hi).
Proof.
  remember (hi - lo) as n eqn:Hn. revert lo Hn.
  induction n as [|n IH]; intros lo Hn.
  - rewrite valid_elements_empty by lia. constructor.
  - rewrite valid_elements_step by lia. apply Forall_app. split.
    + destruct (safeParse element (at_index data lo)) as [d|] eqn:E;
        cbn [yield_if_success]; constructor; [|constructor].
      exists lo, d. repeat split; [lia | lia | exact E].
    + eapply Forall_impl; [|apply IH; lia].
      cbv beta. intros y (i & d & Hy & Hi & Hd).
      exists i, d. repeat split; [exact Hy | lia | lia | exact Hd].
Qed.

Section FromCandidates.

Variable parse : Value -> option Value.
Variable element : Schema.
Variable events : list (list Choice).

Lemma stream_from_candidates_aux :
  forall todo done st,
  events = done ++ todo ->
  buffer st = concat (fragments done) ->
  Forall (from_candidate element events)
    (fst (on_events (ZodArray parse element) st todo)
       ++ on_end (ZodArray parse element)
            (snd (on_events (ZodArray parse element) st todo))).
Proof.
  induction todo as [|event todo IH]; intros done st Hev Hbuf.
  - cbn [on_events fst snd app]. rewrite app_nil_r in Hev. subst done.
    assert (Hcand : candidate_after events (length events)
                    = parseAny (extractCode (buffer st))).
    { unfold candidate_after. rewrite firstn_all, Hbuf. reflexivity. }
    destruct (parseAny (extractCode (buffer st))) as [| | | | |items|]
      eqn:Hdata.
    6:{ rewrite (on_end_array parse element st Hdata).
        eapply Forall_impl; [|apply valid_elements_validated].
        cbv beta. intros y (i & d & Hy & Hi & Hd).
        exists (length events), items, i, d.
        repeat split; [exact Hy | exact Hcand | lia | exact Hd]. }
    all: unfold on_end; rewrite Hdata; constructor.
  - cbn [on_events fst snd].
    assert (Hev' : events = (done ++ [event]) ++ todo)
      by (rewrite <- app_assoc; exact Hev).
    assert (Hpre : firstn (S (length done)) events = done ++ [event]).
    { rewrite Hev'. rewrite firstn_app.
      replace (S (length done) - length (done ++ [event])) with 0
        by (rewrite length_app; cbn [length]; lia).
      rewrite firstn_all2 by (rewrite length_app; cbn [length]; lia).
      cbn [firstn]. apply app_nil_r. }
    destruct (first_content event) as [[|c m]|] eqn:Hm.
    + rewrite on_event_ignored by (right; exact Hm). cbn [fst snd app].
      apply (IH (done ++ [event])); [exact Hev'|].
      rewrite fragments_app. unfold fragments at 2. cbn [flat_map].
      rewrite Hm. cbn [length Nat.eqb]. rewrite !app_nil_r. exact Hbuf.
    + assert (Hbuf' : buffer st ++ c :: m
                      = concat (fragments (done ++ [event]))).
      { rewrite fragments_app, concat_app, <- Hbuf.
        unfold fragments. cbn [flat_map]. rewrite Hm. cbn [length Nat.eqb].
        cbn [app concat]. rewrite app_nil_r. reflexivity. }
      assert (Hcand : candidate_after events (S (length done))
                      = parseAny (extractCode (buffer st ++ c :: m))).
      { unfold candidate_after. rewrite Hpre, Hbuf'. reflexivity. }
      rewrite <- app_assoc. apply Forall_app. split.
      * destruct (parseAny (extractCode (buffer st ++ c :: m)))
          as [| | | | |items|] eqn:Hdata.
        6:{ rewrite (@on_event_array _ _ parse element st event (c :: m) items)
              by (auto; discriminate).
            cbn [fst].
            eapply Forall_impl; [|apply valid_elements_validated].
            cbv beta. intros y (i & d & Hy & Hi & Hd).
            exists (S (length done)), items, i, d.
            repeat split; [exact Hy | exact Hcand | lia | exact Hd]. }
        all: rewrite (@on_event_not_array _ _ parse element st event (c :: m))
               by (auto; try discriminate;
                   intros items; rewrite Hdata; discriminate).
        all: constructor.
      * apply (IH (done ++ [event])); [exact Hev'|].
        rewrite (@on_event_buffer parse element st event (c :: m))
          by (auto; discriminate).
        exact Hbuf'.
    + rewrite on_event_ignored by (left; exact Hm). cbn [fst snd app].
      apply (IH (done ++ [event])); [exact Hev'|].
      rewrite fragments_app. unfold fragments at 2. cbn [flat_map].
      rewrite Hm. rewrite !app_nil_r. exact Hbuf.
Qed.

End FromCandidates.

(** X8. Under any schema that is not an array schema, [stream] yields
    the non-empty fragments as they are and keeps no state; under a
    string schema, the chunks put together are the very text that [run]
    validates when it receives the fragments as one message. *)
Theorem stream_passes_fragments (p : Prompt Num Tmpl)
    (events : list (list Choice)) :
  instanceof_ZodArray (schema p) = false ->
  stream p events = map Chunk (fragments events)
  /\ map (@yielded_value Num) (stream p events)
     = map (@JStr Num) (fragments events)
  /\ snd (on_events (schema p) initial events) = initial
  /\ (forall parse, schema p = ZodString parse ->
        run p [{| content := Some (concat (fragments events)) |}]
        = ([Validated (JStr (concat (fragments events)))],
           parse (JStr (concat (fragments events))))).
Proof.
  intros Hs.
  assert (Hall : stream p events = map Chunk (fragments events)).
  { unfold stream. rewrite on_events_chunks by exact Hs. cbn [fst snd].
    destruct (schema p); try discriminate; apply app_nil_r. }
  split; [exact Hall|]. split; [|split].
  - rewrite Hall, map_map. reflexivity.
  - rewrite on_events_chunks by exact Hs. reflexivity.
  - intros parse Hp. unfold run. cbn [first_content content].
    rewrite Hp. reflexivity.
Qed.

(** X9. Events without a string, or with an empty one, change nothing:
    two streams with the same non-empty fragments yield the same. *)
Theorem stream_ignores_empty_events (p : Prompt Num Tmpl)
    (events1 events2 : list (list Choice)) :
  fragments events1 = fragments events2 ->
  stream p events1 = stream p events2.
Proof.
  intros H. unfold stream.
  rewrite (on_events_fragments (schema p) events1),
          (on_events_fragments (schema p) events2), H.
  reflexivity.
Qed.

(** X10. Under an array schema the buffer after any events is the
    buffer before them followed by their non-empty fragments, in order,
    whatever they parse to; under any other schema neither the buffer
    nor the cursor moves. *)
Theorem buffer_accumulates (s : Schema) (st : StreamState)
    (events : list (list Choice)) :
  (instanceof_ZodArray s = true ->
   buffer (snd (on_events s st events))
   = buffer st ++ concat (fragments events))
  /\ (instanceof_ZodArray s = false -> snd (on_events s st events) = st).
Proof.
  split.
  - intros Hs. destruct s as [|parse element| |]; try discriminate.
    revert st. induction events as [|event events IH]; intros st.
    + cbn [on_events snd fragments flat_map concat]. rewrite app_nil_r.
      reflexivity.
    + cbn [on_events snd]. rewrite IH.
      unfold fragments at 2. cbn [flat_map]. fold (fragments events).
      destruct (first_content event) as [[|c m]|] eqn:Hm.
      * rewrite on_event_ignored by (right; exact Hm). reflexivity.
      * rewrite (@on_event_buffer parse element st event (c :: m))
          by (auto; discriminate).
        cbn [length Nat.eqb app concat]. rewrite <- app_assoc. reflexivity.
      * rewrite on_event_ignored by (left; exact Hm). reflexivity.
  - intros Hs. rewrite on_events_chunks by exact Hs. reflexivity.
Qed.

(** X11. Under an array schema everything [stream] yields is an element
    that passed the element schema: the validated form of the element at
    its index in the array parsed from the buffer after some number of
    events.  No raw fragment is yielded. *)
Theorem stream_yields_validated_elements (p : Prompt Num Tmpl)
    (parse : Value -> option Value) (element : Schema)
    (events : list (list Choice)) :
  schema p = ZodArray parse element ->
  Forall (from_candidate element events) (stream p events).
Proof.
  intros Hs. unfold stream. rewrite Hs.
  apply (@stream_from_candidates_aux parse element events events [] initial);
    reflexivity.
Qed.

(** X12. A stream whose buffer never parses to an array yields nothing,
    and ends without an error. *)
Theorem stream_without_array_is_empty (p : Prompt Num Tmpl)
    (parse : Value -> option Value) (element : Schema)
    (events : list (list Choice)) :
  schema p = ZodArray parse element ->
  (forall k items, candidate_after events k <> JArr items) ->
  stream p events = [].
Proof.
  intros Hs Hnever.
  pose proof (@stream_from_candidates_aux parse element events events []
                initial eq_refl eq_refl) as H.
  unfold stream. rewrite Hs.
  destruct (fst (on_events (ZodArray parse element) initial events)
              ++ on_end (ZodArray parse element)
                   (snd (on_events (ZodArray parse element) initial events)))
    as [|y ys]; [reflexivity|].
  inversion H as [|? ? (k & items & _ & _ & _ & Hk & _) _]; subst.
  destruct (Hnever k items Hk).
Qed.

(** X13. When the whole answer arrives in one fragment and parses to an
    array, [stream] yields the valid elements of that array, all of
    them, in order: the last one at the end of the stream, the others
    before.  The array is the candidate that [run] validates as a whole
    for the same text. *)
Theorem stream_of_one_fragment (p : Prompt Num Tmpl)
    (parse : Value -> option Value) (element : Schema) (m : text)
    (items : list Value) :
  schema p = ZodArray parse element ->
  m <> [] ->
  parseAny (extractCode m) = JArr items ->
  stream p [[{| content := Some m |}]]
  = valid_elements element items 0 (length items)
  /\ fst (on_events (schema p) initial [[{| content := Some m |}]])
     = valid_elements element items 0 (length items - 1)
  /\ snd (run p [{| content := Some m |}]) = parse (JArr items).
Proof.
  intros Hs Hne Hdata.
  assert (Hstep : on_event (ZodArray parse element) initial
                    [{| content := Some m |}]
                  = (valid_elements element items 0 (length items - 1),
                     {| buffer := m; itemsDone := length items - 1 |})).
  { rewrite (@on_event_array _ _ parse element initial
               [{| content := Some m |}] m items eq_refl Hne Hdata).
    cbn [initial buffer itemsDone app]. f_equal. f_equal. lia. }
  split; [|split].
  - unfold stream. rewrite Hs. cbn [on_events fst snd].
    rewrite Hstep. cbn [fst snd]. rewrite app_nil_r.
    rewrite (@on_end_array _ _ parse element
               {| buffer := m; itemsDone := length items - 1 |} items Hdata).
    cbn [itemsDone]. symmetry. apply valid_elements_split; lia.
  - rewrite Hs. cbn [on_events fst snd]. rewrite Hstep. cbn [fst].
    apply app_nil_r.
  - unfold run. cbn [first_content content]. rewrite Hs.
    cbn [instanceof_ZodArray instanceof_ZodObject instanceof_ZodString
         orb safeParse snd]. rewrite Hdata. reflexivity.
Qed.

(** X14. For an array or an object schema, [run] on a message that holds
    a block between three-backtick fences validates what the block
    parses to: the prose before the opening fence and whatever follows
    the closing fence play no part. *)
Theorem run_on_fenced_message (p : Prompt Num Tmpl) (choices : list Choice)
    (before tag body after : text) (nlA nlB : bool) (inA trA inB : nat) :
  instanceof_ZodArray (schema p) || instanceof_ZodObject (schema p) = true ->
  first_content choices
  = Some (before ++ opening_fence nlA inA tag trA ++ body
            ++ closing_fence nlB inB ++ after) ->
  no_backtick before ->
  no_backtick body ->
  Forall (fun c => is_word c = true) tag ->
  (nlA = false -> ends_clean before) ->
  (nlB = false -> ends_clean body) ->
  snd (run p choices) = safeParse (schema p) (parseAny body).
Proof.
  intros Hs Hmsg Hpre Hbody Htag HcleanA HcleanB.
  assert (Hwin : extractCode (before ++ opening_fence nlA inA tag trA ++ body
                                ++ closing_fence nlB inB ++ after) = body).
  { unfold extractCode, matchAll. cbv zeta.
    fold (matchAll codeBlockExp
            (before ++ opening_fence nlA inA tag trA ++ body
               ++ closing_fence nlB inB ++ after)).
    fold (delimiters (before ++ opening_fence nlA inA tag trA ++ body
                        ++ closing_fence nlB inB ++ after)).
    rewrite delimiters_opening by assumption.
    destruct (@matchAll_from_closing
                (length before + length (opening_fence nlA inA tag trA))
                body after nlB inB Hbody HcleanB) as (w & later & ->).
    cbn [index matched].
    replace (before ++ opening_fence nlA inA tag trA ++ body
               ++ closing_fence nlB inB ++ after)
      with ((before ++ opening_fence nlA inA tag trA) ++ body
              ++ closing_fence nlB inB ++ after)
      by (rewrite <- !app_assoc; reflexivity).
    rewrite <- length_app. apply slice_app. }
  unfold run. rewrite Hmsg, Hs. cbn [snd].
  rewrite Hwin.
  destruct (schema p); try discriminate; reflexivity.
Qed.

End Streams.

(** ** More on the batch pipeline *)

Section Batch.

Variable Num : Type.
Variable Tmpl : Type.
Context {decoders : Decoders Num}.

(** X16. For a message in which three backticks in a row occur nowhere,
    [run] under an array or an object schema validates what the whole
    message parses to: without a fence the message is its own block. *)
Theorem run_on_unfenced_message (p : Prompt Num Tmpl)
    (choices : list Choice) (msg : text) :
  instanceof_ZodArray (schema p) || instanceof_ZodObject (schema p) = true ->
  first_content choices = Some msg ->
  (forall a b, msg <> a ++ ticks 3 ++ b) ->
  run p choices
  = ([Extracted msg; Parsed msg; Validated (parseAny msg)],
     safeParse (schema p) (parseAny msg)).
Proof.
  intros Hs Hmsg Hno.
  assert (Hwin : extractCode msg = msg).
  { apply extractCode_no_delimiter.
    destruct (delimiters msg) as [|m ms] eqn:E; [reflexivity|].
    unfold delimiters, matchAll in E.
    destruct (@matchAll_from_first _ _ _ _ _ E)
      as (a & rest & Ht & _ & Hex & _).
    apply exec_codeBlockExp_shape in Hex.
    destruct Hex as (nl & indent & rest' & Hw).
    destruct (Hno (a ++ opt_newline nl ++ spaces indent) rest').
    rewrite Ht, Hw, <- !app_assoc. reflexivity. }
  unfold run. rewrite Hmsg, Hs, Hwin.
  destruct (schema p); try discriminate; reflexivity.
Qed.

(** X17. Every prompt that [prompt] creates has a non-empty model, the
    client and the template it was created with, and the schema of its
    options, or [z.string()] when they bring none. *)
Theorem prompt_created_is_complete (pp : PromptPig) (tmpl : Tmpl)
    (options : option (PromptOptions Num)) (p : Prompt Num Tmpl) :
  prompt pp tmpl options = inr p ->
  model p <> []
  /\ openai p = pp_openai pp
  /\ template p = tmpl
  /\ schema p
     = match options with
       | Some {| po_schema := Some s |} => s
       | _ => z_string Num
       end.
Proof.
  unfold prompt. intros Hp.
  destruct (match pp_model pp with
            | Some m => Some m
            | None => match options with
                      | Some o => po_model o
                      | None => None
                      end
            end) as [[|c m]|]; try discriminate.
  injection Hp as <-. cbn [model openai template schema new_Prompt].
  repeat split; try discriminate.
  destruct options as [[om [s|]]|]; reflexivity.
Qed.

End Batch.

(** ** The further properties on concrete inputs *)

Lemma extractCode_idempotent_witness :
  delimiters (extractCode (fenced 3 (txt "json") (txt "[1,2,3]"))) = []
  /\ extractCode (extractCode (fenced 3 (txt "json") (txt "[1,2,3]")))
     = extractCode (fenced 3 (txt "json") (txt "[1,2,3]")).
Proof.
  destruct (extractCode_idempotent (fenced 3 (txt "json") (txt "[1,2,3]")))
    as [H1 H2].
  split; [|exact H2].
  apply H1. vm_compute. discriminate.
Defined.

Lemma delimiters_iff_three_backticks_witness :
  delimiters (txt "a```b") <> []
  /\ extractCode (txt "`x`") = txt "`x`".
Proof.
  split.
  - apply (proj1 (delimiters_iff_three_backticks (txt "a```b"))).
    exists (txt "a"), (txt "b"). reflexivity.
  - apply (proj2 (delimiters_iff_three_backticks (txt "`x`"))).
    intros a b H.
    destruct a as [|c1 [|c2 [|c3 [|c4 a]]]]; vm_compute in H; discriminate H.
Defined.

Lemma new_PromptPig_outcome_witness :
  exists e,
    new_PromptPig {| opt_openai := None;
                     opt_baseURL := Some [];
                     opt_apiKey := Some (txt "your-api-key");
                     opt_model := None |}
    = inl e.
Proof.
  apply (proj1 (new_PromptPig_outcome _)).
  split; [reflexivity|]. left. right. reflexivity.
Defined.

Lemma prompt_fails_iff_witness :
  exists e,
    @prompt Z unit {| pp_openai := pp_openai sample_client;
                      pp_model := Some [] |} tt
      (Some {| po_model := Some (txt "gpt-4o"); po_schema := None |})
    = inl e.
Proof.
  apply (proj2 (@prompt_fails_iff Z unit _ tt _)).
  left. reflexivity.
Defined.

Lemma prompt_without_schema_witness :
  run (new_Prompt tt (pp_openai sample_client) (txt "deepseek/deepseek-r1")
         None)
      (delta "[4]")
  = ([Validated (JStr (txt "[4]"))], Some (JStr (txt "[4]"))).
Proof.
  destruct (@prompt_without_schema Z unit sample_decoders sample_client tt None
              (new_Prompt tt (pp_openai sample_client)
                 (txt "deepseek/deepseek-r1") None))
    as (_ & _ & Hrun & _).
  - reflexivity.
  - left. reflexivity.
  - apply Hrun. reflexivity.
Defined.

Lemma stream_passes_fragments_witness :
  stream number_prompt [delta "4"; delta ""; delta "2"]
  = [Chunk (txt "4"); Chunk (txt "2")].
Proof.
  apply (@stream_passes_fragments Z unit sample_decoders number_prompt
           [delta "4"; delta ""; delta "2"]).
  reflexivity.
Defined.

Lemma stream_ignores_empty_events_witness :
  stream numbers_prompt [delta "[1,"; delta ""; []; delta "2,3]"]
  = stream numbers_prompt [delta "[1,"; delta "2,3]"].
Proof.
  apply stream_ignores_empty_events. reflexivity.
Defined.

Lemma buffer_accumulates_witness :
  buffer (snd (on_events (schema numbers_prompt) initial fenced_in_three))
  = buffer initial ++ concat (fragments fenced_in_three).
Proof.
  apply (proj1 (@buffer_accumulates Z sample_decoders (schema numbers_prompt)
                  initial fenced_in_three)).
  reflexivity.
Defined.

Lemma stream_yields_validated_elements_witness :
  Forall (from_candidate z_number fenced_in_three)
         (stream numbers_prompt fenced_in_three).
Proof.
  apply (@stream_yields_validated_elements Z unit sample_decoders
           numbers_prompt (safeParse (z_array z_number)) z_number
           fenced_in_three).
  reflexivity.
Defined.

Lemma stream_without_array_is_empty_witness :
  stream numbers_prompt [delta "Here"] = [].
Proof.
  apply (@stream_without_array_is_empty Z unit sample_decoders numbers_prompt
           (safeParse (z_array z_number)) z_number [delta "Here"]).
  - reflexivity.
  - intros k items H.
    destruct k as [|[|k]]; vm_compute in H; discriminate H.
Defined.

Lemma stream_of_one_fragment_witness :
  stream numbers_prompt [delta "[1,2,3]"]
  = [Element 0 (JNum 1%Z); Element 1 (JNum 2%Z); Element 2 (JNum 3%Z)].
Proof.
  apply (@stream_of_one_fragment Z unit sample_decoders numbers_prompt
           (safeParse (z_array z_number)) z_number (txt "[1,2,3]")
           [JNum 1%Z; JNum 2%Z; JNum 3%Z]).
  - reflexivity.
  - discriminate.
  - reflexivity.
Defined.

Lemma run_on_fenced_message_witness :
  snd (run numbers_prompt
         [{| content := Some (txt "Here you go:"
                                ++ opening_fence true 0 (txt "json") 0
                                ++ txt "[1,2,3]" ++ closing_fence true 0
                                ++ txt " Enjoy!") |}])
  = Some (JArr [JNum 1%Z; JNum 2%Z; JNum 3%Z]).
Proof.
  apply (@run_on_fenced_message Z unit sample_decoders numbers_prompt
           [{| content := Some (txt "Here you go:"
                                  ++ opening_fence true 0 (txt "json") 0
                                  ++ txt "[1,2,3]" ++ closing_fence true 0
                                  ++ txt " Enjoy!") |}]
           (txt "Here you go:") (txt "json") (txt "[1,2,3]") (txt " Enjoy!")
           true true 0 0 0).
  - reflexivity.
  - reflexivity.
  - unfold no_backtick. repeat constructor; discriminate.
  - unfold no_backtick. repeat constructor; discriminate.
  - repeat constructor.
  - discriminate.
  - discriminate.
Defined.

Lemma run_on_unfenced_message_witness :
  run numbers_prompt (delta "[4]")
  = ([Extracted (txt "[4]"); Parsed (txt "[4]"); Validated (JArr [JNum 4%Z])],
     Some (JArr [JNum 4%Z])).
Proof.
  apply (@run_on_unfenced_message Z unit sample_decoders numbers_prompt
           (delta "[4]") (txt "[4]")).
  - reflexivity.
  - reflexivity.
  - intros a b H.
    destruct a as [|c1 [|c2 [|c3 [|c4 a]]]]; vm_compute in H; discriminate H.
Defined.

Lemma prompt_created_is_complete_witness :
  model (prompt_of z_number) <> []
  /\ schema (prompt_of z_number) = z_number.
Proof.
  destruct (@prompt_created_is_complete Z unit sample_client tt
              (Some {| po_model := Some (txt "gpt-4o");
                       po_schema := Some z_number |})
              (prompt_of z_number) eq_refl)
    as (Hm & _ & _ & Hs).
  split; [exact Hm | exact Hs].
Defined.
